(** * Namespaced key-value store over bbolt (package store)

    A shallow embedding of [pkg/store]: the [Store] operations of
    [BboltStore] ([Put], [Get], [Delete], [ListKeys], [KeysByPrefix],
    [Close]) and the factory [NewStore], together with the properties the
    specification states about them, and further properties of the same
    code.  [Dump] prints the buckets; its model returns what it writes to
    standard output.

    The store is a thin layer over the external engine go.etcd.io/bbolt.
    The engine is not part of the repository; module [Bbolt] models the part
    of its exported API that the store calls, following the engine's
    documented behaviour (each definition quotes the sentence of the bbolt
    documentation it models).  Everything outside [Bbolt] is translated
    from the Go source of the repository. *)

From Stdlib Require Import Strings.Byte.
From Stdlib Require Strings.String.
From stdpp Require Import gmap strings list sorting.

Set Warnings "-clear-no-such-hyp".

(** ** Byte slices

    A Go [[]byte] is modelled by its contents, a [list byte].  Where the
    source tests a slice against [nil] the model uses [option]: [None] is the
    nil slice, [Some l] a slice with contents [l]. *)

Abbreviation bytes := (list byte).

#[global] Instance byte_eq_decision : EqDecision byte := Byte.byte_eq_dec.

#[global] Instance byte_countable : Countable byte :=
  inj_countable Byte.to_N Byte.of_N Byte.of_to_N.

(** Go's conversion [[]byte(s)] of a string and back. *)
Definition bytes_of_string (s : string) : bytes := String.list_byte_of_string s.
Definition string_of_bytes (b : bytes) : string := String.string_of_list_byte b.

(** [bytes.Compare]: lexicographic comparison by unsigned byte value. *)
Fixpoint bytes_compare (a b : bytes) : comparison :=
  match a, b with
  | [], [] => Eq
  | [], _ :: _ => Lt
  | _ :: _, [] => Gt
  | x :: a', y :: b' =>
      match (Byte.to_N x ?= Byte.to_N y)%N with
      | Eq => bytes_compare a' b'
      | c => c
      end
  end.

(** [bytes.Equal]. *)
Definition bytes_equal (a b : bytes) : bool :=
  match bytes_compare a b with Eq => true | _ => false end.

Definition bytes_ltb (a b : bytes) : bool :=
  match bytes_compare a b with Lt => true | _ => false end.

Definition bytes_lt (a b : bytes) : Prop := bytes_compare a b = Lt.

#[global] Instance bytes_lt_dec a b : Decision (bytes_lt a b).
Proof. unfold bytes_lt. solve_decision. Defined.

(** [bytes.HasPrefix(s, prefix)]:
    [len(s) >= len(prefix) && Equal(s[:len(prefix)], prefix)]. *)
Definition HasPrefix (s prefix : bytes) : bool :=
  (length prefix <=? length s)%nat && bytes_equal (take (length prefix) s) prefix.

(** ** Errors

    The values of Go's [error] that the store returns: the sentinel errors
    of the engine, which the store passes on unchanged, and the errors the
    store builds with [fmt.Errorf] (one constructor per format string, with
    the arguments of the format). *)

Inductive error :=
| ErrDatabaseNotOpen     (* bbolt: "database not open" *)
| ErrBucketNameRequired  (* bbolt: "bucket name required" *)
| ErrKeyRequired         (* bbolt: "key required" *)
| ErrKeyTooLarge         (* bbolt: "key too large" *)
| ErrValueTooLarge       (* bbolt: "value too large" *)
| ErrOpenFile            (* bbolt: the error of a failed [Open] *)
| Errorf_abrir (err : error)
    (* "error al abrir base de datos bbolt: %v" *)
| Errorf_crear_bucket (namespace : string) (err : error)
    (* "error al crear/abrir bucket '%s': %v" *)
| Errorf_bucket_no_encontrado (namespace : string)
    (* "bucket no encontrado: %s" *)
| Errorf_clave_no_encontrada (key : string)
    (* "clave no encontrada: %s" *)
| Errorf_motor_desconocido (engine : string).
    (* "motor de almacenamiento desconocido: %s" *)

(** ** Calls that may not return

    What a call that can wait without limit gives: the values it returns,
    or nothing while it waits. *)
Inductive Outcome (A : Type) :=
| Returns (a : A)
| Blocks.

Arguments Returns {A} a.
Arguments Blocks {A}.

(** ** The engine: go.etcd.io/bbolt *)

Module Bbolt.

(** [MaxKeySize = 32768] and [MaxValueSize = (1 << 31) - 2]. *)
Definition MaxKeySize : Z := 32768.
Definition MaxValueSize : Z := 2147483646.

(** A bucket is a B+tree; what the store observes of it is the sequence of
    its (key, value) leaves, which the engine keeps in ascending
    [bytes.Compare] order of the keys ("Bolt stores its keys in byte-sorted
    order within a bucket").  The store never creates nested buckets, so a
    leaf always holds a plain value. *)
Abbreviation Leaves := (list (bytes * bytes)).

(** The state of a transaction [*bbolt.Tx]: the top-level buckets by
    name. *)
Abbreviation Tx := (gmap bytes Leaves).

(** A [*bbolt.Bucket] belongs to a transaction and is identified in it by
    the bucket's name; what is written through it is seen by every later
    read of the transaction. *)
Abbreviation Bucket := bytes.

Definition leaves_of (tx : Tx) (b : Bucket) : Leaves :=
  default [] (tx !! b).

(** The database handle [*bbolt.DB]: whether it is open, and the committed
    contents of the file. *)
Record DB := mkDB { opened : bool; root : Tx }.

(** *** Cursor

    A [*bbolt.Cursor] walks the leaves of its bucket: [cur_rest] holds
    the leaves from the current position on, so its head is the current
    item and [[]] is the position after the last item, where [First],
    [Seek] and [Next] return a nil key. *)
Record Cursor := mkCursor { cur_leaves : Leaves; cur_rest : Leaves }.

(** [Bucket.Cursor]: "creates a cursor associated with the bucket". *)
Definition Bucket_Cursor (tx : Tx) (b : Bucket) : Cursor :=
  mkCursor (leaves_of tx b) [].

(** The key the last move of the cursor returned, [nil] past the end. *)
Definition Cursor_key (c : Cursor) : option bytes :=
  match cur_rest c with
  | [] => None
  | (k, _) :: _ => Some k
  end.

(** [Cursor.First]: "moves the cursor to the first item in the bucket". *)
Definition Cursor_First (c : Cursor) : Cursor :=
  mkCursor (cur_leaves c) (cur_leaves c).

(** [Cursor.Next]: "moves the cursor to the next item in the bucket". *)
Definition Cursor_Next (c : Cursor) : Cursor :=
  mkCursor (cur_leaves c) (tail (cur_rest c)).

(** The leaves from the first one whose key is not below [seek]. *)
Fixpoint leaf_seek (seek : bytes) (l : Leaves) : Leaves :=
  match l with
  | [] => []
  | (k, v) :: rest =>
      if bytes_ltb k seek then leaf_seek seek rest else l
  end.

(** [Cursor.Seek]: "moves the cursor to a given key ...  If the key does
    not exist then the next key is used.  If no keys follow, a nil key is
    returned". *)
Definition Cursor_Seek (c : Cursor) (seek : bytes) : Cursor :=
  mkCursor (cur_leaves c) (leaf_seek seek (cur_leaves c)).

(** *** Bucket *)

(** [Bucket.Get]: "Returns a nil value if the key does not exist"; a key
    that exists with a zero-length value yields a non-nil empty slice
    ("you can have a zero-length value set to a key which is different than
    the key not existing").  The engine seeks to the key and compares with
    [bytes.Equal]. *)
Definition leaf_get (key : bytes) (l : Leaves) : option bytes :=
  match leaf_seek key l with
  | (k, v) :: _ => if bytes_equal key k then Some v else None
  | [] => None
  end.

Definition Bucket_Get (tx : Tx) (b : Bucket) (key : bytes) : option bytes :=
  leaf_get key (leaves_of tx b).

(** The leaves after inserting or replacing [key], in key order. *)
Fixpoint leaf_put (key value : bytes) (l : Leaves) : Leaves :=
  match l with
  | [] => [(key, value)]
  | (k, v) :: rest =>
      match bytes_compare key k with
      | Lt => (key, value) :: l
      | Eq => (key, value) :: rest
      | Gt => (k, v) :: leaf_put key value rest
      end
  end.

(** The leaves after removing [key]: unchanged when the key is absent. *)
Fixpoint leaf_del (key : bytes) (l : Leaves) : Leaves :=
  match l with
  | [] => []
  | (k, v) :: rest =>
      match bytes_compare key k with
      | Lt => l
      | Eq => rest
      | Gt => (k, v) :: leaf_del key rest
      end
  end.

(** [Bucket.Put] in a writable transaction: "Returns an error ... if the
    key is blank, if the key is too large, or if the value is too large";
    otherwise "sets the value for a key in the bucket.  If the key exist
    then its previous value will be overwritten". *)
Definition Bucket_Put (tx : Tx) (b : Bucket) (key value : bytes)
  : Tx * option error :=
  if (length key =? 0)%nat then (tx, Some ErrKeyRequired)
  else if (MaxKeySize <? Z.of_nat (length key))%Z
  then (tx, Some ErrKeyTooLarge)
  else if (MaxValueSize <? Z.of_nat (length value))%Z
  then (tx, Some ErrValueTooLarge)
  else (<[b := leaf_put key value (leaves_of tx b)]> tx, None).

(** [Bucket.Delete] in a writable transaction: "removes a key from the
    bucket.  If the key does not exist then nothing is done and a nil
    error is returned". *)
Definition Bucket_Delete (tx : Tx) (b : Bucket) (key : bytes)
  : Tx * option error :=
  (<[b := leaf_del key (leaves_of tx b)]> tx, None).

(** *** Transaction *)

(** [Tx.Bucket]: "retrieves a bucket by name.  Returns nil if the bucket
    does not exist". *)
Definition Tx_Bucket (tx : Tx) (name : bytes) : option Bucket :=
  match tx !! name with
  | Some _ => Some name
  | None => None
  end.

(** [Tx.CreateBucketIfNotExists]: "creates a new bucket if it doesn't
    already exist.  Returns an error if the bucket name is blank, or if the
    bucket name is too long": the transaction afterwards with the bucket,
    or the error.  The engine's code has the check of the blank name only,
    and so has the model. *)
Definition Tx_CreateBucketIfNotExists (tx : Tx) (name : bytes)
  : (Tx * Bucket) + error :=
  if (length name =? 0)%nat then inr ErrBucketNameRequired
  else match tx !! name with
       | Some _ => inl (tx, name)
       | None => inl (<[name := []]> tx, name)
       end.

(** *** Database *)

(** [DB.Update]: "executes a function within the context of a read-write
    managed transaction.  If no error is returned from the function then
    the transaction is committed.  If an error is returned then the entire
    transaction is rolled back."  On a closed database the transaction
    cannot begin ([ErrDatabaseNotOpen]) and the function is not run.
    Failures of the disk at commit are outside the model. *)
Definition DB_Update (fn : Tx → Tx * option error) (d : DB)
  : DB * option error :=
  if opened d then
    match fn (root d) with
    | (tx, None) => (mkDB true tx, None)
    | (_, Some e) => (d, Some e)
    end
  else (d, Some ErrDatabaseNotOpen).

(** [DB.View]: "executes a function within the context of a managed
    read-only transaction.  Any error that is returned from the function
    is returned from the View() method."  The function's result of type
    [A] stands for the variables it captures and assigns; [init] is what
    they hold when the function is not run. *)
Definition DB_View {A : Type} (init : A) (fn : Tx → A * option error)
    (d : DB) : A * option error :=
  if opened d then fn (root d) else (init, Some ErrDatabaseNotOpen).

(** [DB.Close]: "releases all database resources"; later transactions
    fail. *)
Definition DB_Close (d : DB) : DB * option error :=
  (mkDB false (root d), None).

(** The file system as [Open] sees it at the time of the call, path by
    path.  At a path there is no file but one can be created (its
    directory exists and allows it); or a database file with its buckets,
    whose lock an open handle may hold; or what the engine fails on
    without waiting: a directory, a file it has no permission on, a file
    that no handle has locked and that holds no bbolt database.  A path
    the file system holds nothing for has no file and none can be
    created: its directory is missing or forbids it.

    A [FileSystem] is a state of the paths, not a store of the data: the
    handle [Open] returns keeps the contents from then on, and neither
    what later transactions commit nor the release of the lock by
    [DB.Close] is written back to it. *)
Inductive File :=
| Creatable
| DbFile (contents : Tx) (locked : bool)
| Unopenable.

Abbreviation FileSystem := (gmap string File).

(** [Open(path, 0600, nil)]: "creates and opens a database at the given
    path.  If the file does not exist then it will be created
    automatically".  The engine opens the file with
    [os.OpenFile(path, O_RDWR|O_CREATE, 0600)], which fails on the empty
    path, on a path whose directory is missing and on what cannot be
    opened for writing; it then takes the lock of the file, and with the
    default options, which the nil options stand for, waits for it
    without limit ("Timeout is the amount of time to wait to obtain a file
    lock.  When set to zero it will wait indefinitely"): "Opening an
    already open Bolt database will cause it to hang until the other
    process closes it."  A file it created it initialises with no
    bucket.  All the errors of [Open] are the one [ErrOpenFile] of the
    model. *)
Definition Open (path : string) (fs : FileSystem)
  : Outcome (DB + error) * FileSystem :=
  if String.eqb path "" then (Returns (inr ErrOpenFile), fs)
  else match fs !! path with
       | None => (Returns (inr ErrOpenFile), fs)
       | Some Creatable =>
           (Returns (inl (mkDB true ∅)), <[path := DbFile ∅ true]> fs)
       | Some (DbFile r false) =>
           (Returns (inl (mkDB true r)), <[path := DbFile r true]> fs)
       | Some (DbFile r true) => (Blocks, fs)
       | Some Unopenable => (Returns (inr ErrOpenFile), fs)
       end.

(** *** Iteration *)

(** The loop of [Bucket.ForEach] and [Tx.ForEach] over the items of a
    bucket: "If the provided function returns an error then the iteration
    is stopped and the error is returned to the caller."  The state of
    type [A] stands for what the function writes: the variables it
    captures, its output. *)
Fixpoint ForEach_loop {K V A : Type} (fn : K → V → A → A * option error)
    (items : list (K * V)) (a : A) : A * option error :=
  match items with
  | [] => (a, None)
  | (k, v) :: rest =>
      match fn k v a with
      | (a', None) => ForEach_loop fn rest a'
      | (a', Some e) => (a', Some e)
      end
  end.

(** [Bucket.ForEach]: "executes a function for each key/value pair in a
    bucket.  Because ForEach uses a Cursor, the iteration over keys is in
    lexicographical order". *)
Definition Bucket_ForEach {A : Type} (tx : Tx) (b : Bucket)
    (fn : bytes → bytes → A → A * option error) (a : A) : A * option error :=
  ForEach_loop fn (leaves_of tx b) a.

(** The order [bytes.Compare(x, y) <= 0] on the names of buckets. *)
Definition name_le (x y : bytes * Leaves) : Prop :=
  bytes_compare x.1 y.1 ≠ Gt.

#[global] Instance name_le_dec x y : Decision (name_le x y).
Proof. unfold name_le. apply _. Defined.

(** The top-level buckets in the order the engine walks them: they are
    the items of the root bucket, which is in key order as every bucket
    is, the key of an item being the name of the bucket. *)
Definition Tx_buckets (tx : Tx) : list (bytes * Leaves) :=
  merge_sort name_le (map_to_list tx).

(** [Tx.ForEach]: "executes a function for each bucket in the root"; the
    function receives the name of the bucket and the bucket. *)
Definition Tx_ForEach {A : Type} (tx : Tx)
    (fn : bytes → Bucket → A → A * option error) (a : A) : A * option error :=
  ForEach_loop (λ name _, fn name name) (Tx_buckets tx) a.

End Bbolt.

(** ** The store (bbolt_store.go, store.go) *)

Import Bbolt.

(** [BboltStore] holds the handle of the bbolt database. *)
Record BboltStore := mkStore { db : DB }.

(** [NewBboltStore] opens the bbolt database at [path]; it returns when
    [bbolt.Open] does. *)
Definition NewBboltStore (path : string) (fs : FileSystem)
  : Outcome (option BboltStore * option error) * FileSystem :=
  match Open path fs with
  | (Blocks, fs') => (Blocks, fs')
  | (Returns (inr err), fs') => (Returns (None, Some (Errorf_abrir err)), fs')
  | (Returns (inl d), fs') => (Returns (Some (mkStore d), None), fs')
  end.

(** [Put] stores or updates (key, value) in the bucket named [namespace]. *)
Definition Put (s : BboltStore) (namespace : string) (key value : bytes)
  : BboltStore * option error :=
  let '(d, err) :=
    DB_Update (fun tx =>
      match Tx_CreateBucketIfNotExists tx (bytes_of_string namespace) with
      | inr err => (tx, Some (Errorf_crear_bucket namespace err))
      | inl (tx1, b) => Bucket_Put tx1 b key value
      end) (db s) in
  (mkStore d, err).

(** [Get] fetches the value of [key] in the bucket named [namespace]. *)
Definition Get (s : BboltStore) (namespace : string) (key : bytes)
  : option bytes * option error :=
  DB_View None (fun tx =>
    match Tx_Bucket tx (bytes_of_string namespace) with
    | None => (None, Some (Errorf_bucket_no_encontrado namespace))
    | Some b =>
        let val := Bucket_Get tx b key in
        match val with
        | None => (val, Some (Errorf_clave_no_encontrada (string_of_bytes key)))
        | Some _ => (val, None)
        end
    end) (db s).

(** [Delete] removes [key] from the bucket named [namespace]. *)
Definition Delete (s : BboltStore) (namespace : string) (key : bytes)
  : BboltStore * option error :=
  let '(d, err) :=
    DB_Update (fun tx =>
      match Tx_Bucket tx (bytes_of_string namespace) with
      | None => (tx, Some (Errorf_bucket_no_encontrado namespace))
      | Some b => Bucket_Delete tx b key
      end) (db s) in
  (mkStore d, err).

(** The loop of [ListKeys],
    [for k, _ := c.First(); k != nil; k, _ = c.Next()], from the cursor
    position whose remaining leaves are [rest]: each key is copied and
    appended to [keys]. *)
Fixpoint ListKeys_loop (rest : Leaves) (keys : list bytes) : list bytes :=
  match rest with
  | [] => keys
  | (k, _) :: rest' => ListKeys_loop rest' (keys ++ [k])
  end.

(** [ListKeys] returns all the keys of the bucket named [namespace]. *)
Definition ListKeys (s : BboltStore) (namespace : string)
  : list bytes * option error :=
  DB_View [] (fun tx =>
    match Tx_Bucket tx (bytes_of_string namespace) with
    | None => ([], Some (Errorf_bucket_no_encontrado namespace))
    | Some b =>
        let c := Bucket_Cursor tx b in
        (ListKeys_loop (cur_rest (Cursor_First c)) [], None)
    end) (db s).

(** The loop of [KeysByPrefix],
    [for k, _ := c.Seek(prefix); k != nil && bytes.HasPrefix(k, prefix);
     k, _ = c.Next()]. *)
Fixpoint KeysByPrefix_loop (prefix : bytes) (rest : Leaves)
    (matchedKeys : list bytes) : list bytes :=
  match rest with
  | [] => matchedKeys
  | (k, _) :: rest' =>
      if HasPrefix k prefix
      then KeysByPrefix_loop prefix rest' (matchedKeys ++ [k])
      else matchedKeys
  end.

(** [KeysByPrefix] returns the keys of the bucket named [namespace] that
    begin with [prefix]. *)
Definition KeysByPrefix (s : BboltStore) (namespace : string) (prefix : bytes)
  : list bytes * option error :=
  DB_View [] (fun tx =>
    match Tx_Bucket tx (bytes_of_string namespace) with
    | None => ([], Some (Errorf_bucket_no_encontrado namespace))
    | Some b =>
        let c := Bucket_Cursor tx b in
        (KeysByPrefix_loop prefix (cur_rest (Cursor_Seek c prefix)) [], None)
    end) (db s).

(** [Close] closes the bbolt database. *)
Definition Close (s : BboltStore) : BboltStore * option error :=
  let '(d, err) := DB_Close (db s) in (mkStore d, err).

(** Standard output: the texts written, one per call of [fmt.Printf],
    in order. *)
Abbreviation Stdout := (list string).

Definition newline : string := String (Ascii.ascii_of_nat 10) "".

(** [fmt.Printf("Bucket: %s\n", bucketName)]. *)
Definition Printf_bucket (bucketName : string) : string :=
  "Bucket: " +:+ bucketName +:+ newline.

(** [fmt.Printf("  Key: %s, Value: %s\n", k, v)]. *)
Definition Printf_key_value (k v : string) : string :=
  "  Key: " +:+ k +:+ ", Value: " +:+ v +:+ newline.

(** The error [Dump] builds with [fmt.Errorf],
    "error al hacer el volcado de depuración: %v".  No other operation
    returns it. *)
Inductive dump_error :=
| Errorf_volcado (err : error).

(** [Dump] prints the whole contents of the database: from the standard
    output [out] so far to the standard output afterwards. *)
Definition Dump (s : BboltStore) (out : Stdout) : Stdout * option dump_error :=
  let '(out', err) :=
    DB_View out (fun tx =>
      Tx_ForEach tx (fun bucketName b out =>
        let out := out ++ [Printf_bucket (string_of_bytes bucketName)] in
        Bucket_ForEach tx b (fun k v out =>
          (out ++ [Printf_key_value (string_of_bytes k) (string_of_bytes v)],
           None)) out) out) (db s) in
  match err with
  | Some e => (out', Some (Errorf_volcado e))
  | None => (out', None)
  end.

(** [NewStore] instantiates the store of the requested engine; only
    ["bbolt"] is supported. *)
Definition NewStore (engine path : string) (fs : FileSystem)
  : Outcome (option BboltStore * option error) * FileSystem :=
  if String.eqb engine "bbolt" then NewBboltStore path fs
  else (Returns (None, Some (Errorf_motor_desconocido engine)), fs).

(** The kinds of error the specification speaks of.  The source has no
    error types: an error is told from another by its message only, and
    [error_kind] reads the kind off the message. *)
Inductive ErrorKind :=
| OpenError
| UnsupportedEngineError
| NotFoundError
| EngineError
| ClosedError.

Definition error_kind (e : error) : ErrorKind :=
  match e with
  | ErrDatabaseNotOpen => ClosedError
  | Errorf_abrir _ => OpenError
  | Errorf_motor_desconocido _ => UnsupportedEngineError
  | Errorf_bucket_no_encontrado _ | Errorf_clave_no_encontrada _ => NotFoundError
  | _ => EngineError
  end.

(** ** Histories of writes *)

(** A mutating call on the store. *)
Inductive Op :=
| OpPut (namespace : string) (key value : bytes)
| OpDelete (namespace : string) (key : bytes).

#[global] Instance Op_eq_dec : EqDecision Op.
Proof. solve_decision. Defined.

Definition op_namespace (op : Op) : string :=
  match op with
  | OpPut ns _ _ | OpDelete ns _ => ns
  end.

Definition op_key (op : Op) : bytes :=
  match op with
  | OpPut _ k _ | OpDelete _ k => k
  end.

Definition apply_op (s : BboltStore) (op : Op) : BboltStore * option error :=
  match op with
  | OpPut ns k v => Put s ns k v
  | OpDelete ns k => Delete s ns k
  end.

(** The store after the calls [ops], in order, whatever each returned. *)
Definition run (ops : list Op) (s : BboltStore) : BboltStore :=
  foldl (λ s op, (apply_op s op).1) s ops.

(** The store [NewStore] gives when it creates the file: open, with no
    bucket. *)
Definition fresh_store : BboltStore := mkStore (mkDB true ∅).

(** ** Invariants *)

(** The leaves of a bucket are in strictly ascending key order. *)
Definition leaves_sorted (l : Leaves) : Prop := StronglySorted bytes_lt l.*1.

(** Every bucket of the database is in key order. *)
Definition db_sorted (s : BboltStore) : Prop :=
  map_Forall (λ _ l, leaves_sorted l) (root (db s)).

Definition is_open (s : BboltStore) : Prop := opened (db s) = true.

(** The namespace has a bucket. *)
Definition has_namespace (s : BboltStore) (ns : string) : Prop :=
  is_Some (root (db s) !! bytes_of_string ns).

(** The keys held in the namespace ([[]] when it has no bucket). *)
Definition keys_of (s : BboltStore) (ns : string) : list bytes :=
  (leaves_of (root (db s)) (bytes_of_string ns)).*1.

(** ** Entries, accepted arguments and histories *)

(** The value held under [key] in the namespace, [None] when the namespace
    or the key is absent. *)
Definition lookup_entry (s : BboltStore) (ns : string) (key : bytes)
  : option bytes :=
  root (db s) !! bytes_of_string ns ≫= leaf_get key.

(** The arguments the engine accepts in a [Put]: a namespace and a key that
    are not blank, a key and a value within the engine's limits. *)
Definition put_accepted (ns : string) (key value : bytes) : Prop :=
  ns ≠ "" ∧ key ≠ [] ∧
  (Z.of_nat (length key) ≤ MaxKeySize)%Z ∧
  (Z.of_nat (length value) ≤ MaxValueSize)%Z.

#[global] Instance put_accepted_dec ns key value :
  Decision (put_accepted ns key value).
Proof. unfold put_accepted. apply _. Defined.

(** The error of a [Put] on an open store, by the first check that fails. *)
Definition put_error (ns : string) (key value : bytes) : option error :=
  if decide (ns = "") then Some (Errorf_crear_bucket ns ErrBucketNameRequired)
  else if decide (key = []) then Some ErrKeyRequired
  else if decide (MaxKeySize < Z.of_nat (length key))%Z then Some ErrKeyTooLarge
  else if decide (MaxValueSize < Z.of_nat (length value))%Z
  then Some ErrValueTooLarge
  else None.

(** The error is of the kind the specification calls [NotFoundError]. *)
Definition not_found (err : option error) : Prop :=
  ∃ e, err = Some e ∧ error_kind e = NotFoundError.

(** The keys the specification's words describe for [ListKeys]: those a
    [Put] of the history wrote (the [Put] returned no error) that no later
    [Delete] of the history removed. *)
Definition put_and_kept (ops : list Op) (ns : string) (k : bytes) : Prop :=
  ∃ pre v post,
    ops = pre ++ OpPut ns k v :: post
    ∧ (Put (run pre fresh_store) ns k v).2 = None
    ∧ OpDelete ns k ∉ post.

(** Sample keys and values. *)
Definition key_user1 : bytes := bytes_of_string "user:1".
Definition key_user2 : bytes := bytes_of_string "user:2".
Definition key_group1 : bytes := bytes_of_string "group:1".
Definition val_a : bytes := bytes_of_string "a".
Definition val_b : bytes := bytes_of_string "b".

(** A call that is not a mutation of the pair (ns, key). *)
Definition misses_pair (ns : string) (key : bytes) (op : Op) : Prop :=
  (op_namespace op, op_key op) ≠ (ns, key).

(** The store of the specification's example of a prefix scan. *)
Definition users_and_groups : BboltStore :=
  run [OpPut "ns" key_user1 val_a; OpPut "ns" key_user2 val_b;
       OpPut "ns" key_group1 val_a] fresh_store.

(** ** The order of keys *)

Section order.

Lemma to_N_inj x y : Byte.to_N x = Byte.to_N y → x = y.
Proof.
  intros H. apply (f_equal Byte.of_N) in H.
  rewrite !Byte.of_to_N in H. congruence.
Qed.

Lemma bytes_compare_refl a : bytes_compare a a = Eq.
Proof. induction a as [|x a IH]; simpl; [done|]. by rewrite N.compare_refl. Qed.

Lemma bytes_compare_eq a b : bytes_compare a b = Eq → a = b.
Proof.
  revert b. induction a as [|x a IH]; intros [|y b]; simpl; try done.
  destruct (N.compare_spec (Byte.to_N x) (Byte.to_N y)) as [E| |]; try done.
  intros H. apply to_N_inj in E. f_equal; auto.
Qed.

Lemma bytes_compare_antisym a b :
  bytes_compare b a = CompOpp (bytes_compare a b).
Proof.
  revert b. induction a as [|x a IH]; intros [|y b]; simpl; try done.
  rewrite (N.compare_antisym (Byte.to_N x) (Byte.to_N y)).
  destruct (Byte.to_N x ?= Byte.to_N y)%N; simpl; auto.
Qed.

Lemma bytes_lt_gt a b : bytes_compare a b = Gt ↔ bytes_lt b a.
Proof.
  unfold bytes_lt. rewrite (bytes_compare_antisym a b).
  destruct (bytes_compare a b); simpl; split; congruence.
Qed.

Lemma bytes_lt_irrefl a : ¬ bytes_lt a a.
Proof. unfold bytes_lt. by rewrite bytes_compare_refl. Qed.

Lemma bytes_lt_trans a b c : bytes_lt a b → bytes_lt b c → bytes_lt a c.
Proof.
  unfold bytes_lt. revert b c.
  induction a as [|x a IH]; intros [|y b] [|z c]; simpl; try done.
  destruct (N.compare_spec (Byte.to_N x) (Byte.to_N y));
    destruct (N.compare_spec (Byte.to_N y) (Byte.to_N z));
    destruct (N.compare_spec (Byte.to_N x) (Byte.to_N z));
    try done; try (exfalso; lia).
  apply IH.
Qed.

#[global] Instance bytes_lt_strict : StrictOrder bytes_lt.
Proof.
  split.
  - intros a. apply bytes_lt_irrefl.
  - intros a b c. apply bytes_lt_trans.
Qed.

Lemma bytes_ltb_lt a b : bytes_ltb a b = true ↔ bytes_lt a b.
Proof. unfold bytes_ltb, bytes_lt. destruct (bytes_compare a b); split; congruence. Qed.

Lemma bytes_equal_eq a b : bytes_equal a b = true ↔ a = b.
Proof.
  unfold bytes_equal. split.
  - destruct (bytes_compare a b) eqn:E; try done. intros _. by apply bytes_compare_eq.
  - intros ->. by rewrite bytes_compare_refl.
Qed.

Lemma bytes_lt_nil_r a : ¬ bytes_lt a [].
Proof. unfold bytes_lt. by destruct a. Qed.

(** Trichotomy, in the shape the leaf functions branch on. *)
Lemma bytes_compare_cases a b :
  (bytes_compare a b = Lt ∧ bytes_lt a b)
  ∨ (bytes_compare a b = Eq ∧ a = b)
  ∨ (bytes_compare a b = Gt ∧ bytes_lt b a).
Proof.
  destruct (bytes_compare a b) eqn:E.
  - right; left. split; [done|]. by apply bytes_compare_eq.
  - left. done.
  - right; right. split; [done|]. by apply bytes_lt_gt.
Qed.

End order.

(** ** The leaves of a bucket *)

Section leaves.

Implicit Types (l : Leaves) (k key : bytes).

Lemma leaves_sorted_cons k v l :
  leaves_sorted ((k, v) :: l) ↔ Forall (bytes_lt k) l.*1 ∧ leaves_sorted l.
Proof. unfold leaves_sorted. simpl. apply StronglySorted_cons. Qed.

Lemma leaves_sorted_nil : leaves_sorted [].
Proof. constructor. Qed.

(** Below the head of a sorted bucket there is no key. *)
Lemma sorted_head_least k v l k' :
  leaves_sorted ((k, v) :: l) → k' ∈ l.*1 → bytes_lt k k'.
Proof.
  rewrite leaves_sorted_cons. intros [Hall _] Hin.
  by eapply Forall_forall in Hall.
Qed.

Lemma leaf_get_cons key k v l :
  leaf_get key ((k, v) :: l) =
    if bytes_ltb k key then leaf_get key l
    else if bytes_equal key k then Some v else None.
Proof. unfold leaf_get. simpl. by destruct (bytes_ltb k key). Qed.

(** In a sorted bucket [leaf_get] finds exactly the leaves. *)
Lemma leaf_get_Some l key v :
  leaves_sorted l → leaf_get key l = Some v ↔ (key, v) ∈ l.
Proof.
  induction l as [|[k0 v0] l IH]; intros Hs.
  - split; [done | by intros ?%elem_of_nil].
  - pose proof (sorted_head_least _ _ _ key Hs) as Hleast.
    apply leaves_sorted_cons in Hs as [_ Hs].
    rewrite leaf_get_cons, elem_of_cons.
    destruct (bytes_ltb k0 key) eqn:Hlt.
    + apply bytes_ltb_lt in Hlt. rewrite (IH Hs). split; [auto|].
      intros [[= -> _]|?]; [|done]. by apply bytes_lt_irrefl in Hlt.
    + destruct (bytes_equal key k0) eqn:Heq.
      * apply bytes_equal_eq in Heq as ->. split.
        -- intros [= ->]. by left.
        -- intros [[= ->]|Hin]; [done|]. exfalso.
           apply (bytes_lt_irrefl k0), Hleast.
           apply list_elem_of_fmap. by exists (k0, v).
      * split; [done|]. intros [[= -> _]|Hin].
        -- by rewrite (proj2 (bytes_equal_eq k0 k0)) in Heq.
        -- exfalso. assert (bytes_lt k0 key) as Hk.
           { apply Hleast, list_elem_of_fmap. by exists (key, v). }
           apply bytes_ltb_lt in Hk. congruence.
Qed.

Lemma leaf_get_None l key :
  leaves_sorted l → leaf_get key l = None ↔ key ∉ l.*1.
Proof.
  intros Hs. rewrite list_elem_of_fmap. split.
  - intros Hn [[k v] [-> Hin]]. simpl in Hn.
    apply (leaf_get_Some _ _ _ Hs) in Hin. congruence.
  - intros Hn. destruct (leaf_get key l) as [v|] eqn:E; [|done].
    apply (leaf_get_Some _ _ _ Hs) in E. exfalso. apply Hn. by exists (key, v).
Qed.

Lemma leaf_get_is_Some l key :
  leaves_sorted l → is_Some (leaf_get key l) ↔ key ∈ l.*1.
Proof.
  intros Hs. rewrite <- not_eq_None_Some, (leaf_get_None _ _ Hs).
  split; [apply dec_stable | auto].
Qed.

(** A [Put] is read back, whatever the bucket held. *)
Lemma leaf_get_put_eq l key v : leaf_get key (leaf_put key v l) = Some v.
Proof.
  assert (Hself : ∀ l', leaf_get key ((key, v) :: l') = Some v).
  { intros l'. rewrite leaf_get_cons.
    destruct (bytes_ltb key key) eqn:E.
    - apply bytes_ltb_lt in E. by apply bytes_lt_irrefl in E.
    - by rewrite (proj2 (bytes_equal_eq key key)). }
  induction l as [|[k0 v0] l IH]; simpl; [apply Hself|].
  destruct (bytes_compare_cases key k0) as [[-> _]|[[-> _]|[-> Hgt]]];
    [apply Hself | apply Hself |].
  rewrite leaf_get_cons. apply bytes_ltb_lt in Hgt. by rewrite Hgt.
Qed.

(** A search that stops at a leaf with another key finds nothing. *)
Lemma leaf_get_cons_miss key v l k' :
  key ≠ k' → bytes_ltb key k' = false → leaf_get k' ((key, v) :: l) = None.
Proof.
  intros Hne E. rewrite leaf_get_cons, E.
  destruct (bytes_equal k' key) eqn:E'; [|done].
  apply bytes_equal_eq in E'. congruence.
Qed.

(** A [Put] leaves the other keys as they were. *)
Lemma leaf_get_put_ne l key v k' :
  key ≠ k' → leaf_get k' (leaf_put key v l) = leaf_get k' l.
Proof.
  intros Hne.
  induction l as [|[k0 v0] l IH]; simpl.
  - destruct (bytes_ltb key k') eqn:E.
    + by rewrite leaf_get_cons, E.
    + by rewrite leaf_get_cons_miss.
  - destruct (bytes_compare_cases key k0) as [[-> Hlt]|[[-> ->]|[-> Hgt]]].
    + destruct (bytes_ltb key k') eqn:E.
      * by rewrite (leaf_get_cons k' key), E.
      * rewrite leaf_get_cons_miss by done. rewrite leaf_get_cons.
        assert (bytes_ltb k0 k' = false) as ->.
        { apply not_true_is_false. intros H%bytes_ltb_lt.
          assert (bytes_lt key k') as H' by (by eapply bytes_lt_trans).
          apply bytes_ltb_lt in H'. congruence. }
        destruct (bytes_equal k' k0) eqn:E'; [|done].
        apply bytes_equal_eq in E' as ->. apply bytes_ltb_lt in Hlt. congruence.
    + rewrite !leaf_get_cons. destruct (bytes_ltb k0 k'); [done|].
      destruct (bytes_equal k' k0) eqn:E'; [|done].
      apply bytes_equal_eq in E'. congruence.
    + rewrite !leaf_get_cons, IH. done.
Qed.

(** The keys after a [Put]: the new key and the old ones. *)
Lemma leaf_put_keys l key v k' :
  k' ∈ (leaf_put key v l).*1 ↔ k' = key ∨ k' ∈ l.*1.
Proof.
  induction l as [|[k0 v0] l IH]; simpl.
  - set_solver.
  - destruct (bytes_compare_cases key k0) as [[-> _]|[[-> ->]|[-> _]]];
      simpl; set_solver.
Qed.

Lemma leaf_put_sorted l key v :
  leaves_sorted l → leaves_sorted (leaf_put key v l).
Proof.
  induction l as [|[k0 v0] l IH]; simpl; intros Hs.
  - apply leaves_sorted_cons. split; [constructor | apply leaves_sorted_nil].
  - destruct (bytes_compare_cases key k0) as [[-> Hlt]|[[-> ->]|[-> Hgt]]].
    + apply leaves_sorted_cons. split; [|done]. simpl. constructor; [done|].
      apply leaves_sorted_cons in Hs as [Hall _].
      eapply Forall_impl; [exact Hall|]. intros k'. by apply bytes_lt_trans.
    + apply leaves_sorted_cons in Hs. by apply leaves_sorted_cons.
    + apply leaves_sorted_cons in Hs as [Hall Hs].
      apply leaves_sorted_cons. split; [|auto].
      apply Forall_forall. intros k' [->|Hin]%leaf_put_keys; [done|].
      by eapply Forall_forall in Hall.
Qed.

(** The leaves after a [Delete] in a sorted bucket: the old ones but the
    one of the key. *)
Lemma leaf_del_elem l key e :
  leaves_sorted l → e ∈ leaf_del key l ↔ e ∈ l ∧ e.1 ≠ key.
Proof.
  induction l as [|[k0 v0] l IH]; simpl; intros Hs.
  - set_solver.
  - pose proof (sorted_head_least _ _ _ e.1 Hs) as Hleast.
    assert (e ∈ l → bytes_lt k0 e.1) as Hin.
    { intros He. apply Hleast, list_elem_of_fmap. by exists e. }
    apply leaves_sorted_cons in Hs as [_ Hs]. specialize (IH Hs).
    destruct (bytes_compare_cases key k0) as [[-> Hlt]|[[-> ->]|[-> Hgt]]].
    + split; [|tauto]. intros He. split; [done|].
      intros <-. apply elem_of_cons in He as [->|He].
      * by apply bytes_lt_irrefl in Hlt.
      * apply (bytes_lt_irrefl e.1). eapply bytes_lt_trans; eauto.
    + rewrite elem_of_cons. split.
      * intros He. split; [by right|]. intros <-.
        by apply (bytes_lt_irrefl e.1), Hin.
      * intros [[->|He] Hne]; done.
    + rewrite !elem_of_cons, IH. split.
      * intros [->|[He Hne]]; [|tauto]. split; [by left|]. simpl.
        intros <-. by apply bytes_lt_irrefl in Hgt.
      * intros [[->|He] Hne]; [by left | by right].
Qed.

Lemma leaf_del_keys l key k' :
  leaves_sorted l → k' ∈ (leaf_del key l).*1 ↔ k' ∈ l.*1 ∧ k' ≠ key.
Proof.
  intros Hs. rewrite !list_elem_of_fmap. split.
  - intros [e [-> [He Hne]%leaf_del_elem]]; [|done]. split; [by exists e|done].
  - intros [[e [-> He]] Hne]. exists e. split; [done|]. by apply leaf_del_elem.
Qed.

Lemma leaf_del_sorted l key :
  leaves_sorted l → leaves_sorted (leaf_del key l).
Proof.
  induction l as [|[k0 v0] l IH]; simpl; intros Hs; [done|].
  destruct (bytes_compare_cases key k0) as [[-> _]|[[-> _]|[-> _]]];
    [done | by apply leaves_sorted_cons in Hs as [_ ?] |].
  apply leaves_sorted_cons in Hs as [Hall Hs].
  apply leaves_sorted_cons. split; [|auto].
  apply Forall_forall. intros k' [Hin _]%leaf_del_keys; [|done].
  by eapply Forall_forall in Hall.
Qed.

(** A deleted key is gone. *)
Lemma leaf_get_del_eq l key :
  leaves_sorted l → leaf_get key (leaf_del key l) = None.
Proof.
  intros Hs. apply leaf_get_None; [by apply leaf_del_sorted|].
  intros [_ Hne]%leaf_del_keys; done.
Qed.

(** A [Delete] leaves the other keys as they were. *)
Lemma leaf_get_del_ne l key k' :
  leaves_sorted l → key ≠ k' → leaf_get k' (leaf_del key l) = leaf_get k' l.
Proof.
  intros Hs Hne. apply option_eq. intros v.
  rewrite !leaf_get_Some by auto using leaf_del_sorted.
  rewrite leaf_del_elem by done. simpl. naive_solver.
Qed.

(** Deleting a key the bucket does not hold changes nothing. *)
Lemma leaf_del_absent l key : key ∉ l.*1 → leaf_del key l = l.
Proof.
  induction l as [|[k0 v0] l IH]; simpl; intros Hn; [done|].
  destruct (bytes_compare_cases key k0) as [[-> _]|[[-> ->]|[-> _]]].
  - done.
  - set_solver.
  - f_equal. apply IH. set_solver.
Qed.

(** The loop of [ListKeys] appends the keys from the cursor on. *)
Lemma ListKeys_loop_spec rest keys :
  ListKeys_loop rest keys = keys ++ rest.*1.
Proof.
  revert keys. induction rest as [|[k v] rest IH]; intros keys; simpl.
  - by rewrite app_nil_r.
  - by rewrite IH, <- app_assoc.
Qed.

(** The loop of [ListKeys] is the loop over the cursor. *)
Lemma ListKeys_loop_step c keys :
  ListKeys_loop (cur_rest c) keys =
    match Cursor_key c with
    | None => keys
    | Some k => ListKeys_loop (cur_rest (Cursor_Next c)) (keys ++ [k])
    end.
Proof. unfold Cursor_key. by destruct c as [? [|[k v] rest]]. Qed.

Lemma KeysByPrefix_loop_step prefix c keys :
  KeysByPrefix_loop prefix (cur_rest c) keys =
    match Cursor_key c with
    | None => keys
    | Some k =>
        if HasPrefix k prefix
        then KeysByPrefix_loop prefix (cur_rest (Cursor_Next c)) (keys ++ [k])
        else keys
    end.
Proof. unfold Cursor_key. by destruct c as [? [|[k v] rest]]. Qed.

End leaves.

(** ** Prefixes and the order of keys *)

Section prefixes.

Implicit Types (p k b c : bytes) (l : Leaves).

(** [bytes.HasPrefix] decides that [k] begins with [p]. *)
Lemma HasPrefix_prefix k p : HasPrefix k p = true ↔ p `prefix_of` k.
Proof.
  unfold HasPrefix. rewrite andb_true_iff, Nat.leb_le, bytes_equal_eq. split.
  - intros [_ H]. exists (drop (length p) k).
    by rewrite <- H at 1; rewrite take_drop.
  - intros [t ->]. rewrite length_app. split; [lia|].
    by rewrite take_app_length.
Qed.

Lemma HasPrefix_nil k : HasPrefix k [] = true.
Proof. apply HasPrefix_prefix, prefix_nil. Qed.

(** A key that begins with [p] is not below [p]. *)
Lemma prefix_not_lt p k : p `prefix_of` k → ¬ bytes_lt k p.
Proof.
  intros [t ->]. unfold bytes_lt. induction p as [|x p IH]; simpl.
  - by destruct t.
  - by rewrite N.compare_refl.
Qed.

(** The keys that begin with [p] are an interval of the order that starts
    at [p]: a key between [p] and a key that begins with [p] begins with
    [p] too. *)
Lemma prefix_convex p b c :
  ¬ bytes_lt b p → bytes_lt b c → p `prefix_of` c → p `prefix_of` b.
Proof.
  unfold bytes_lt. revert b c.
  induction p as [|y p IH]; intros b c Hge Hlt Hpre; [apply prefix_nil|].
  destruct Hpre as [t ->]. destruct b as [|x b]; simpl in *; [done|].
  destruct (N.compare_spec (Byte.to_N x) (Byte.to_N y)) as [E| |]; try done.
  apply to_N_inj in E as ->. apply prefix_cons. eapply IH; eauto.
  by exists t.
Qed.

(** [Seek] skips keys below [p] only: none of them begins with [p]. *)
Lemma leaf_seek_filter p l :
  List.filter (λ k, HasPrefix k p) (leaf_seek p l).*1 =
  List.filter (λ k, HasPrefix k p) l.*1.
Proof.
  induction l as [|[k v] l IH]; simpl; [done|].
  destruct (bytes_ltb k p) eqn:E; [|done].
  rewrite IH. destruct (HasPrefix k p) eqn:Hp; [|done].
  apply HasPrefix_prefix, prefix_not_lt in Hp.
  by apply bytes_ltb_lt in E.
Qed.

(** In a sorted bucket [Seek] lands on a sorted run of keys not below the
    key sought. *)
Lemma leaf_seek_sorted p l :
  leaves_sorted l → leaves_sorted (leaf_seek p l).
Proof.
  induction l as [|[k v] l IH]; simpl; intros Hs; [done|].
  destruct (bytes_ltb k p); [|done].
  apply leaves_sorted_cons in Hs as [_ Hs]. auto.
Qed.

Lemma leaf_seek_head p l k v rest :
  leaf_seek p l = (k, v) :: rest → ¬ bytes_lt k p.
Proof.
  induction l as [|[k0 v0] l IH]; simpl; [done|].
  destruct (bytes_ltb k0 p) eqn:E; [done|].
  intros [= -> -> ->] H%bytes_ltb_lt. congruence.
Qed.

Lemma filter_none (f : bytes → bool) (ks : list bytes) :
  (∀ k, k ∈ ks → f k = false) → List.filter f ks = [].
Proof.
  induction ks as [|k ks IH]; simpl; intros H; [done|].
  rewrite (H k) by set_solver. apply IH. intros k' ?. apply H. set_solver.
Qed.

(** From a key that is not below [p] on, the loop of [KeysByPrefix]
    collects all the keys of a sorted bucket that begin with [p]: after
    the first key that does not, none does. *)
Lemma KeysByPrefix_loop_spec p rest keys :
  leaves_sorted rest →
  (∀ k v rest', rest = (k, v) :: rest' → ¬ bytes_lt k p) →
  KeysByPrefix_loop p rest keys =
    keys ++ List.filter (λ k, HasPrefix k p) rest.*1.
Proof.
  revert keys. induction rest as [|[k v] rest IH]; intros keys Hs Hge; simpl.
  - by rewrite app_nil_r.
  - specialize (Hge k v rest eq_refl).
    assert (Hleast : ∀ k', k' ∈ rest.*1 → bytes_lt k k')
      by (intros k'; by apply sorted_head_least with v).
    apply leaves_sorted_cons in Hs as [_ Hs].
    destruct (HasPrefix k p) eqn:Hp.
    + rewrite IH, <- app_assoc; [done..|].
      intros k' v' rest' ->. intros Hlt. apply Hge.
      eapply bytes_lt_trans; [|exact Hlt]. apply Hleast. set_solver.
    + rewrite filter_none; [by rewrite app_nil_r|]. intros k' Hin.
      apply not_true_is_false. intros Hp'%HasPrefix_prefix.
      apply Hleast in Hin.
      apply (prefix_convex _ _ _ Hge Hin), HasPrefix_prefix in Hp'. congruence.
Qed.

(** Filtering keeps a sorted list sorted. *)
Lemma filter_sorted (f : bytes → bool) (ks : list bytes) :
  StronglySorted bytes_lt ks → StronglySorted bytes_lt (List.filter f ks).
Proof.
  induction 1 as [|k ks Hs IH Hall]; simpl; [constructor|].
  destruct (f k); [|done]. constructor; [done|].
  apply Forall_forall. intros k' [Hin _]%list_elem_of_In%List.filter_In.
  eapply Forall_forall in Hall; [done|]. by apply list_elem_of_In.
Qed.

End prefixes.

(** ** The operations on an open store *)

Section operations.

Implicit Types (s : BboltStore) (ns : string) (k key v : bytes).

Lemma bytes_of_string_inj ns1 ns2 :
  bytes_of_string ns1 = bytes_of_string ns2 → ns1 = ns2.
Proof.
  unfold bytes_of_string. intros H.
  apply (f_equal String.string_of_list_byte) in H.
  by rewrite !String.string_of_list_byte_of_string in H.
Qed.

Lemma bytes_of_string_blank ns :
  (length (bytes_of_string ns) =? 0)%nat = true ↔ ns = "".
Proof.
  rewrite Nat.eqb_eq. split.
  - intros H%nil_length_inv. by apply bytes_of_string_inj.
  - by intros ->.
Qed.

Lemma length_blank k : (length k =? 0)%nat = true ↔ k = [].
Proof. rewrite Nat.eqb_eq. split; [apply nil_length_inv | by intros ->]. Qed.

Lemma put_error_None ns k v : put_error ns k v = None ↔ put_accepted ns k v.
Proof.
  unfold put_error, put_accepted. split.
  - repeat case_decide; try done. intros _. repeat split; [done | done | lia | lia].
  - intros (?&?&?&?). rewrite !decide_False by (done || lia). done.
Qed.

Lemma leaves_of_insert (tx : Tx) (b b' : Bucket) l :
  leaves_of (<[b := l]> tx) b' = if decide (b = b') then l else leaves_of tx b'.
Proof. unfold leaves_of. rewrite lookup_insert. by case_decide. Qed.

(** [Put] on an open store: the error of the first failing check and the
    store as it was, or the store with the leaf written. *)
Lemma Put_open s ns k v :
  is_open s →
  Put s ns k v =
    match put_error ns k v with
    | Some e => (s, Some e)
    | None =>
        let tx := root (db s) in
        let b := bytes_of_string ns in
        (mkStore (mkDB true (<[b := leaf_put k v (leaves_of tx b)]> tx)), None)
    end.
Proof.
  destruct s as [[o tx]]. unfold is_open. simpl. intros ->.
  unfold Put, DB_Update, Tx_CreateBucketIfNotExists, put_error.
  cbn [db opened root].
  case_decide as Hns.
  { by rewrite (proj2 (bytes_of_string_blank ns) Hns). }
  destruct (length (bytes_of_string ns) =? 0)%nat eqn:E;
    [by apply bytes_of_string_blank in E|].
  assert (∀ tx1, leaves_of tx1 (bytes_of_string ns) = leaves_of tx (bytes_of_string ns) →
            <[bytes_of_string ns := leaf_put k v (leaves_of tx (bytes_of_string ns))]> tx1
            = <[bytes_of_string ns := leaf_put k v (leaves_of tx (bytes_of_string ns))]> tx →
    (let '(d, err) :=
       match Bucket_Put tx1 (bytes_of_string ns) k v with
       | (tx2, None) => (mkDB true tx2, None)
       | (_, Some e) => (mkDB true tx, Some e)
       end in (mkStore d, err)) =
    match
      (if decide (k = []) then Some ErrKeyRequired
       else if decide (MaxKeySize < Z.of_nat (length k))%Z then Some ErrKeyTooLarge
       else if decide (MaxValueSize < Z.of_nat (length v))%Z
       then Some ErrValueTooLarge else None)
    with
    | Some e => (mkStore (mkDB true tx), Some e)
    | None => (mkStore (mkDB true
                 (<[bytes_of_string ns :=
                      leaf_put k v (leaves_of tx (bytes_of_string ns))]> tx)), None)
    end) as Hbody.
  { intros tx1 Hl Hi. unfold Bucket_Put.
    case_decide as Hk.
    { by rewrite (proj2 (length_blank k) Hk). }
    destruct (length k =? 0)%nat eqn:Ek; [by apply length_blank in Ek|].
    case_decide as Hkl.
    { by rewrite (proj2 (Z.ltb_lt _ _) Hkl). }
    rewrite (proj2 (Z.ltb_ge _ _)) by lia.
    case_decide as Hvl.
    { by rewrite (proj2 (Z.ltb_lt _ _) Hvl). }
    rewrite (proj2 (Z.ltb_ge _ _)) by lia.
    by rewrite Hl, Hi. }
  destruct (tx !! bytes_of_string ns) as [l|] eqn:Hb.
  - by apply Hbody.
  - apply Hbody.
    + rewrite leaves_of_insert, decide_True by done.
      unfold leaves_of. by rewrite Hb.
    + apply insert_insert_eq.
Qed.

Lemma Put_closed s ns k v :
  ¬ is_open s → Put s ns k v = (s, Some ErrDatabaseNotOpen).
Proof.
  destruct s as [[o tx]]. unfold is_open, Put, DB_Update. simpl.
  by destruct o.
Qed.

(** [Delete] on an open store. *)
Lemma Delete_open s ns k :
  is_open s →
  Delete s ns k =
    match root (db s) !! bytes_of_string ns with
    | None => (s, Some (Errorf_bucket_no_encontrado ns))
    | Some l =>
        (mkStore (mkDB true (<[bytes_of_string ns := leaf_del k l]> (root (db s)))),
         None)
    end.
Proof.
  destruct s as [[o tx]]. unfold is_open. simpl. intros ->.
  unfold Delete, DB_Update, Tx_Bucket, Bucket_Delete, leaves_of.
  cbn [db opened root].
  destruct (tx !! bytes_of_string ns) as [l|] eqn:Hb; [by rewrite Hb | done].
Qed.

(** [Get] on an open store. *)
Lemma Get_open s ns k :
  is_open s →
  Get s ns k =
    match root (db s) !! bytes_of_string ns with
    | None => (None, Some (Errorf_bucket_no_encontrado ns))
    | Some l =>
        match leaf_get k l with
        | None => (None, Some (Errorf_clave_no_encontrada (string_of_bytes k)))
        | Some v => (Some v, None)
        end
    end.
Proof.
  unfold is_open, Get, DB_View, Tx_Bucket, Bucket_Get, leaves_of. intros ->.
  destruct (root (db s) !! bytes_of_string ns) as [l|] eqn:Hb; [|done].
  rewrite Hb. cbn [default from_option id]. by destruct (leaf_get k l).
Qed.

(** [ListKeys] on an open store. *)
Lemma ListKeys_open s ns :
  is_open s →
  ListKeys s ns =
    match root (db s) !! bytes_of_string ns with
    | None => ([], Some (Errorf_bucket_no_encontrado ns))
    | Some l => (l.*1, None)
    end.
Proof.
  unfold is_open, ListKeys, DB_View, Tx_Bucket, Bucket_Cursor, leaves_of.
  intros ->.
  destruct (root (db s) !! bytes_of_string ns) as [l|] eqn:Hb; [|done].
  cbn [Cursor_First cur_leaves cur_rest]. rewrite Hb.
  by rewrite ListKeys_loop_spec.
Qed.

(** [KeysByPrefix] on an open store whose buckets are in key order. *)
Lemma KeysByPrefix_open s ns p :
  is_open s → db_sorted s →
  KeysByPrefix s ns p =
    match root (db s) !! bytes_of_string ns with
    | None => ([], Some (Errorf_bucket_no_encontrado ns))
    | Some l => (List.filter (λ k, HasPrefix k p) l.*1, None)
    end.
Proof.
  unfold is_open, db_sorted, KeysByPrefix, DB_View, Tx_Bucket, Bucket_Cursor,
    leaves_of.
  intros -> Hs.
  destruct (root (db s) !! bytes_of_string ns) as [l|] eqn:Hb; [|done].
  cbn [Cursor_Seek cur_leaves cur_rest]. rewrite Hb.
  cbn [default from_option id].
  apply Hs in Hb. rewrite KeysByPrefix_loop_spec.
  - by rewrite leaf_seek_filter.
  - by apply leaf_seek_sorted.
  - intros k v rest' E. by eapply leaf_seek_head.
Qed.

End operations.

(** ** Invariants of the store and the effect of a write on an entry *)

Section invariants.

Implicit Types (s : BboltStore) (ns : string) (k key v : bytes) (op : Op).

Lemma fresh_store_open : is_open fresh_store.
Proof. done. Qed.

Lemma fresh_store_sorted : db_sorted fresh_store.
Proof. apply map_Forall_empty. Qed.

Lemma is_open_dec s : is_open s ∨ ¬ is_open s.
Proof. unfold is_open. destruct (opened (db s)); [by left | by right]. Qed.

(** A write neither closes nor opens the database. *)
Lemma Put_keeps_open s ns k v : is_open (Put s ns k v).1 ↔ is_open s.
Proof.
  destruct (is_open_dec s) as [Ho|Hc].
  - rewrite (Put_open _ _ _ _ Ho). by destruct (put_error ns k v).
  - by rewrite (Put_closed _ _ _ _ Hc).
Qed.

Lemma Delete_closed s ns k :
  ¬ is_open s → Delete s ns k = (s, Some ErrDatabaseNotOpen).
Proof.
  destruct s as [[o tx]]. unfold is_open, Delete, DB_Update. simpl.
  by destruct o.
Qed.

Lemma Delete_keeps_open s ns k : is_open (Delete s ns k).1 ↔ is_open s.
Proof.
  destruct (is_open_dec s) as [Ho|Hc].
  - rewrite (Delete_open _ _ _ Ho).
    by destruct (root (db s) !! bytes_of_string ns).
  - by rewrite (Delete_closed _ _ _ Hc).
Qed.

Lemma apply_op_keeps_open s op : is_open (apply_op s op).1 ↔ is_open s.
Proof. destruct op; [apply Put_keeps_open | apply Delete_keeps_open]. Qed.

Lemma run_snoc ops op s : run (ops ++ [op]) s = (apply_op (run ops s) op).1.
Proof. unfold run. by rewrite foldl_app. Qed.

Lemma run_keeps_open ops s : is_open (run ops s) ↔ is_open s.
Proof.
  induction ops as [|op ops IH] using rev_ind; [done|].
  by rewrite run_snoc, apply_op_keeps_open.
Qed.

(** A write keeps every bucket in key order. *)
Lemma Put_keeps_sorted s ns k v : db_sorted s → db_sorted (Put s ns k v).1.
Proof.
  intros Hs. destruct (is_open_dec s) as [Ho|Hc].
  - rewrite (Put_open _ _ _ _ Ho). destruct (put_error ns k v); [done|].
    apply map_Forall_insert_2; [|done]. apply leaf_put_sorted.
    unfold leaves_of.
    destruct (root (db s) !! bytes_of_string ns) as [l|] eqn:Hb;
      [by apply Hs in Hb | apply leaves_sorted_nil].
  - by rewrite (Put_closed _ _ _ _ Hc).
Qed.

Lemma Delete_keeps_sorted s ns k : db_sorted s → db_sorted (Delete s ns k).1.
Proof.
  intros Hs. destruct (is_open_dec s) as [Ho|Hc].
  - rewrite (Delete_open _ _ _ Ho).
    destruct (root (db s) !! bytes_of_string ns) as [l|] eqn:Hb; [|done].
    apply map_Forall_insert_2; [|done]. apply leaf_del_sorted. by apply Hs in Hb.
  - by rewrite (Delete_closed _ _ _ Hc).
Qed.

Lemma apply_op_keeps_sorted s op : db_sorted s → db_sorted (apply_op s op).1.
Proof. destruct op; [apply Put_keeps_sorted | apply Delete_keeps_sorted]. Qed.

Lemma run_keeps_sorted ops s : db_sorted s → db_sorted (run ops s).
Proof.
  intros Hs. induction ops as [|op ops IH] using rev_ind; [done|].
  rewrite run_snoc. by apply apply_op_keeps_sorted.
Qed.

(** [Get] succeeds with the entry, and only with it. *)
Lemma Get_Some_lookup s ns k v :
  is_open s → Get s ns k = (Some v, None) ↔ lookup_entry s ns k = Some v.
Proof.
  intros Ho. rewrite (Get_open _ _ _ Ho). unfold lookup_entry.
  destruct (root (db s) !! bytes_of_string ns) as [l|]; simpl; [|done].
  destruct (leaf_get k l); split; congruence.
Qed.

(** The keys of a namespace are those that have an entry. *)
Lemma keys_of_lookup s ns k :
  db_sorted s → k ∈ keys_of s ns ↔ is_Some (lookup_entry s ns k).
Proof.
  intros Hs. unfold keys_of, lookup_entry, leaves_of.
  destruct (root (db s) !! bytes_of_string ns) as [l|] eqn:Hb; simpl.
  - symmetry. apply leaf_get_is_Some. by apply Hs in Hb.
  - split; [by intros ?%elem_of_nil | by intros [? ?]].
Qed.

(** The entries after a [Put]: the one written, when the engine accepts
    it, and all the others as they were. *)
Lemma lookup_Put s ns k v ns' k' :
  is_open s →
  lookup_entry (Put s ns k v).1 ns' k' =
    if decide (put_accepted ns k v ∧ ns' = ns ∧ k' = k) then Some v
    else lookup_entry s ns' k'.
Proof.
  intros Ho. rewrite (Put_open _ _ _ _ Ho).
  destruct (put_error ns k v) as [e|] eqn:He.
  - rewrite decide_False; [done|]. intros [Ha _].
    apply put_error_None in Ha. congruence.
  - apply put_error_None in He. unfold lookup_entry. cbn [fst db root].
    destruct (decide (ns' = ns)) as [->|Hns].
    + rewrite lookup_insert_eq. simpl.
      destruct (decide (k' = k)) as [->|Hk].
      * rewrite decide_True by done. apply leaf_get_put_eq.
      * rewrite decide_False by tauto. rewrite leaf_get_put_ne by done.
        unfold leaves_of. by destruct (root (db s) !! bytes_of_string ns).
    + rewrite decide_False by tauto. rewrite lookup_insert_ne; [done|].
      intros ?%bytes_of_string_inj. done.
Qed.

(** The entries after a [Delete]: all but the one deleted. *)
Lemma lookup_Delete s ns k ns' k' :
  is_open s → db_sorted s →
  lookup_entry (Delete s ns k).1 ns' k' =
    if decide (ns' = ns ∧ k' = k) then None else lookup_entry s ns' k'.
Proof.
  intros Ho Hs. rewrite (Delete_open _ _ _ Ho). unfold lookup_entry.
  destruct (root (db s) !! bytes_of_string ns) as [l|] eqn:Hb; cbn [fst db root].
  - apply Hs in Hb as Hl. destruct (decide (ns' = ns)) as [->|Hns].
    + rewrite lookup_insert_eq, Hb. simpl.
      destruct (decide (k' = k)) as [->|Hk].
      * rewrite decide_True by done. by apply leaf_get_del_eq.
      * rewrite decide_False by tauto. by apply leaf_get_del_ne.
    + rewrite decide_False by tauto. rewrite lookup_insert_ne; [done|].
      intros ?%bytes_of_string_inj. done.
  - case_decide as Hd; [|done]. destruct Hd as [-> _]. by rewrite Hb.
Qed.

(** Splitting a history that ends in [op] at one of its calls. *)
Lemma snoc_split (ops pre post : list Op) (op x : Op) :
  ops ++ [op] = pre ++ x :: post ↔
    (post = [] ∧ pre = ops ∧ x = op)
    ∨ (∃ post', post = post' ++ [op] ∧ ops = pre ++ x :: post').
Proof.
  split.
  - destruct post as [|y post _] using rev_ind; intros H.
    + left. apply (app_inj_tail ops pre op x) in H as [-> ->]. done.
    + right. exists post.
      rewrite app_comm_cons, app_assoc in H.
      by apply app_inj_tail in H as [-> ->].
  - intros [(-> & -> & ->)|(post' & -> & ->)]; [done|].
    by rewrite <- app_assoc.
Qed.

End invariants.

(** ** What the reads see *)

Section reads.

Implicit Types (s : BboltStore) (ns : string) (k key v p : bytes) (op : Op).

(** The reads of a namespace depend on the database being open and on
    the bucket of the namespace only. *)
Lemma reads_ext s s' ns :
  opened (db s') = opened (db s) →
  root (db s') !! bytes_of_string ns = root (db s) !! bytes_of_string ns →
  (∀ k, Get s' ns k = Get s ns k)
  ∧ ListKeys s' ns = ListKeys s ns
  ∧ (∀ p, KeysByPrefix s' ns p = KeysByPrefix s ns p).
Proof.
  intros Ho Hb.
  unfold Get, ListKeys, KeysByPrefix, DB_View, Tx_Bucket, Bucket_Get,
    Bucket_Cursor, leaves_of.
  rewrite Ho. destruct (opened (db s)); [|done].
  cbv beta. cbn [Cursor_First Cursor_Seek cur_leaves cur_rest].
  rewrite Hb. destruct (root (db s) !! bytes_of_string ns) eqn:E; [|done].
  cbv beta iota. by rewrite Hb, E.
Qed.

(** A write to a namespace leaves the bucket of any other one alone. *)
Lemma apply_op_other_bucket s op ns :
  op_namespace op ≠ ns →
  opened (db (apply_op s op).1) = opened (db s)
  ∧ root (db (apply_op s op).1) !! bytes_of_string ns
    = root (db s) !! bytes_of_string ns.
Proof.
  intros Hne.
  assert (bytes_of_string (op_namespace op) ≠ bytes_of_string ns) as Hb
    by (by intros ?%bytes_of_string_inj).
  destruct (is_open_dec s) as [Ho|Hc]; destruct op as [a k v|a k]; simpl in *.
  - rewrite (Put_open _ _ _ _ Ho). destruct (put_error a k v); [done|].
    cbn [fst db root opened]. by rewrite lookup_insert_ne.
  - rewrite (Delete_open _ _ _ Ho).
    destruct (root (db s) !! bytes_of_string a); [|done].
    cbn [fst db root opened]. by rewrite lookup_insert_ne.
  - by rewrite (Put_closed _ _ _ _ Hc).
  - by rewrite (Delete_closed _ _ _ Hc).
Qed.

(** A store reached from a fresh one holds no blank namespace and no
    blank key: the engine never accepted one. *)
Lemma run_no_blank_namespace ops ns :
  has_namespace (run ops fresh_store) ns → ns ≠ "".
Proof.
  unfold has_namespace.
  induction ops as [|op ops IH] using rev_ind.
  - simpl. rewrite lookup_empty. by intros [? ?].
  - rewrite run_snoc.
    pose proof (proj2 (run_keeps_open ops fresh_store) fresh_store_open) as Ho.
    destruct (decide (op_namespace op = ns)) as [<-|Hne];
      [|by rewrite (proj2 (apply_op_other_bucket _ op ns Hne))].
    destruct op as [a k v|a k]; simpl.
    + rewrite (Put_open _ _ _ _ Ho).
      destruct (put_error a k v) eqn:He; [done|].
      apply put_error_None in He as [? _]. done.
    + rewrite (Delete_open _ _ _ Ho).
      destruct (root (db (run ops fresh_store)) !! bytes_of_string a) eqn:Hb;
        [|done].
      intros _. by apply IH.
Qed.

Lemma run_no_blank_key ops ns k :
  is_Some (lookup_entry (run ops fresh_store) ns k) → k ≠ [].
Proof.
  induction ops as [|op ops IH] using rev_ind.
  - unfold lookup_entry. simpl. rewrite lookup_empty. by intros [? ?].
  - rewrite run_snoc.
    pose proof (proj2 (run_keeps_open ops fresh_store) fresh_store_open) as Ho.
    pose proof (run_keeps_sorted ops _ fresh_store_sorted) as Hs.
    destruct op as [a k' v|a k']; simpl.
    + rewrite (lookup_Put _ _ _ _ _ _ Ho).
      case_decide as Hd; [|done]. by destruct Hd as [(_ & ? & _) [_ ->]].
    + rewrite (lookup_Delete _ _ _ _ _ Ho Hs).
      case_decide; [by intros [? ?] | done].
Qed.

End reads.

(** ** The properties of the specification *)

(** Entries other than those a history writes keep their value. *)
Lemma run_keeps_entry ops s ns k :
  is_open s → db_sorted s →
  Forall (misses_pair ns k) ops →
  lookup_entry (run ops s) ns k = lookup_entry s ns k.
Proof.
  intros Ho Hs. induction ops as [|op ops IH] using rev_ind; [done|].
  intros [Hops Hop%Forall_inv]%Forall_app. rewrite run_snoc, <- (IH Hops).
  pose proof (proj2 (run_keeps_open ops s) Ho) as Ho'.
  pose proof (run_keeps_sorted ops s Hs) as Hs'.
  unfold misses_pair in Hop. destruct op as [a k' v|a k']; simpl in *.
  - rewrite (lookup_Put _ _ _ _ _ _ Ho'). apply decide_False.
    intros (_ & -> & ->). done.
  - rewrite (lookup_Delete _ _ _ _ _ Ho' Hs'). apply decide_False.
    intros (-> & ->). done.
Qed.

(** An open store is its buckets. *)
Lemma store_eta s : is_open s → mkStore (mkDB true (root (db s))) = s.
Proof. destruct s as [[o tx]]. unfold is_open. simpl. by intros ->. Qed.

(** A [Put] that returns no error was made on an open database with
    arguments the engine accepts. *)
Lemma Put_ok_inv s ns k v s' :
  Put s ns k v = (s', None) →
  is_open s ∧ put_accepted ns k v ∧ s' = (Put s ns k v).1.
Proof.
  intros H. destruct (is_open_dec s) as [Ho|Hc].
  - split; [done|]. split; [|by rewrite H].
    rewrite (Put_open _ _ _ _ Ho) in H. apply put_error_None.
    by destruct (put_error ns k v).
  - by rewrite (Put_closed _ _ _ _ Hc) in H.
Qed.

(** C1. Round trip: after a successful [Put(ns, k, v)], and whatever calls
    follow that do not write or delete the pair (ns, k), [Get(ns, k)]
    returns [v] and no error. *)
Theorem Put_Get_round_trip s ns k v s' ops :
  db_sorted s →
  Put s ns k v = (s', None) →
  Forall (misses_pair ns k) ops →
  Get (run ops s') ns k = (Some v, None).
Proof.
  intros Hs (Ho & Ha & ->)%Put_ok_inv Hops.
  assert (is_open (Put s ns k v).1) as Ho' by (by apply Put_keeps_open).
  apply Get_Some_lookup; [by apply run_keeps_open|].
  rewrite run_keeps_entry by auto using Put_keeps_sorted.
  rewrite (lookup_Put _ _ _ _ _ _ Ho). by apply decide_True.
Qed.

Lemma Put_Get_round_trip_witness :
  Get (run [OpPut "ns" key_user2 val_b; OpDelete "ns" key_user2;
            OpPut "other" key_user1 val_b]
         (Put fresh_store "ns" key_user1 val_a).1) "ns" key_user1
  = (Some val_a, None).
Proof.
  apply (Put_Get_round_trip fresh_store "ns" key_user1 val_a).
  - apply map_Forall_empty.
  - vm_compute. reflexivity.
  - repeat constructor; vm_compute; discriminate.
Defined.

(** C6, as the specification states it, fails on a key the engine does not
    accept: both [Put]s of a blank key are rejected and [Get] finds
    nothing. *)
Lemma overwrite_blank_key_fails :
  Get (Put (Put fresh_store "ns" [] val_a).1 "ns" [] val_b).1 "ns" []
  = (None, Some (Errorf_bucket_no_encontrado "ns"))
  ∧ (Put (Put fresh_store "ns" [] val_a).1 "ns" [] val_b).2 = Some ErrKeyRequired.
Proof. vm_compute. done. Qed.

(** C6, amended. Overwrite: when the second [Put(ns, k, v2)] succeeds,
    whatever the first [Put(ns, k, v1)] did, [Get(ns, k)] returns [v2]. *)
Theorem Put_overwrite s ns k v1 v2 s2 :
  Put (Put s ns k v1).1 ns k v2 = (s2, None) →
  Get s2 ns k = (Some v2, None).
Proof.
  intros (Ho & Ha & ->)%Put_ok_inv.
  apply Get_Some_lookup; [by apply Put_keeps_open|].
  rewrite (lookup_Put _ _ _ _ _ _ Ho). by apply decide_True.
Qed.

Lemma Put_overwrite_witness :
  Get (Put (Put fresh_store "ns" key_user1 val_a).1 "ns" key_user1 val_b).1
    "ns" key_user1
  = (Some val_b, None).
Proof.
  apply (Put_overwrite fresh_store "ns" key_user1 val_a val_b).
  vm_compute. reflexivity.
Defined.

(** C2, as the specification states it, fails: the engine rejects a blank
    bucket name and a blank key, where the same [Put] with a namespace and a
    key succeeds. *)
Lemma Put_blank_rejected :
  (Put fresh_store "" key_user1 val_a).2
  = Some (Errorf_crear_bucket "" ErrBucketNameRequired)
  ∧ (Put fresh_store "ns" [] val_a).2 = Some ErrKeyRequired
  ∧ (Put fresh_store "ns" key_user1 val_a).2 = None.
Proof. vm_compute. done. Qed.

(** C2, amended. The store checks no argument itself.  On a store reached
    from a fresh one, [Get], [Delete], [ListKeys] and [KeysByPrefix] take a
    blank namespace or key like any name that is absent; [Put] succeeds
    exactly on the arguments the engine accepts (namespace and key not
    blank, key and value within the size limits), fails on a blank
    namespace with the wrapped "bucket name required" and on a blank key
    with "key required", and a failed [Put] leaves the store as it was. *)
Theorem Put_accepts_no_blank ops ns k v :
  let s := run ops fresh_store in
  ((Put s ns k v).2 = None ↔ put_accepted ns k v)
  ∧ ((Put s ns k v).2 ≠ None → (Put s ns k v).1 = s)
  ∧ Put s "" k v = (s, Some (Errorf_crear_bucket "" ErrBucketNameRequired))
  ∧ (ns ≠ "" → Put s ns [] v = (s, Some ErrKeyRequired))
  ∧ Get s "" k = (None, Some (Errorf_bucket_no_encontrado ""))
  ∧ Delete s "" k = (s, Some (Errorf_bucket_no_encontrado ""))
  ∧ ListKeys s "" = ([], Some (Errorf_bucket_no_encontrado ""))
  ∧ KeysByPrefix s "" k = ([], Some (Errorf_bucket_no_encontrado ""))
  ∧ (has_namespace s ns →
     Get s ns [] = (None, Some (Errorf_clave_no_encontrada ""))
     ∧ Delete s ns [] = (s, None)).
Proof.
  intros s.
  assert (is_open s) as Ho by (by apply run_keeps_open).
  assert (db_sorted s) as Hs by apply run_keeps_sorted, fresh_store_sorted.
  assert (root (db s) !! bytes_of_string "" = None) as Hblank.
  { destruct (root (db s) !! bytes_of_string "") as [l|] eqn:E; [|done].
    exfalso. apply (run_no_blank_namespace ops ""); [|done]. by exists l. }
  split.
  { rewrite (Put_open _ _ _ _ Ho), <- put_error_None.
    by destruct (put_error ns k v). }
  split.
  { rewrite (Put_open _ _ _ _ Ho). by destruct (put_error ns k v). }
  split.
  { by rewrite (Put_open _ _ _ _ Ho). }
  split.
  { intros Hns. rewrite (Put_open _ _ _ _ Ho). unfold put_error.
    by rewrite decide_False, decide_True. }
  split.
  { by rewrite (Get_open _ _ _ Ho), Hblank. }
  split.
  { by rewrite (Delete_open _ _ _ Ho), Hblank. }
  split.
  { by rewrite (ListKeys_open _ _ Ho), Hblank. }
  split.
  { by rewrite (KeysByPrefix_open _ _ _ Ho Hs), Hblank. }
  intros [l Hl].
  assert (leaves_sorted l) as Hl' by (by apply Hs in Hl).
  assert ([] ∉ l.*1) as Hnot.
  { intros Hin. apply (run_no_blank_key ops ns []); [|done].
    apply keys_of_lookup; [done|]. unfold keys_of, leaves_of. fold s.
    by rewrite Hl. }
  split.
  - rewrite (Get_open _ _ _ Ho), Hl.
    by rewrite (proj2 (leaf_get_None _ _ Hl') Hnot).
  - rewrite (Delete_open _ _ _ Ho), Hl, leaf_del_absent, insert_id by done.
    by rewrite store_eta.
Qed.

Lemma Put_accepts_no_blank_witness :
  Put (run [] fresh_store) "ns" [] val_a
  = (run [] fresh_store, Some ErrKeyRequired).
Proof.
  apply (Put_accepts_no_blank [] "ns" key_user1 val_a). discriminate.
Defined.

(** C3. On an open store, [Get(ns, key)] fails with a [NotFoundError]
    exactly when the namespace is absent or the key is absent in it, and
    returns the value otherwise; after [Put(ns, k, v)] and [Delete(ns, k)],
    [Get(ns, k)] fails with a [NotFoundError]. *)
Theorem Get_not_found s ns k :
  is_open s → db_sorted s →
  (not_found (Get s ns k).2 ↔ ¬ has_namespace s ns ∨ k ∉ keys_of s ns)
  ∧ (not_found (Get s ns k).2 → (Get s ns k).1 = None)
  ∧ (has_namespace s ns → k ∈ keys_of s ns → ∃ v, Get s ns k = (Some v, None))
  ∧ (∀ v, not_found (Get (Delete (Put s ns k v).1 ns k).1 ns k).2).
Proof.
  intros Ho Hs.
  assert (Hget : ∀ s', is_open s' → db_sorted s' →
            (lookup_entry s' ns k = None → not_found (Get s' ns k).2
                                           ∧ (Get s' ns k).1 = None)
            ∧ (∀ v, lookup_entry s' ns k = Some v → Get s' ns k = (Some v, None))).
  { intros s' Ho' Hs'. rewrite (Get_open _ _ _ Ho'). unfold lookup_entry.
    destruct (root (db s') !! bytes_of_string ns) as [l|]; simpl.
    - split; [intros -> | by intros v ->]. split; [|done]. by eexists.
    - split; [|done]. intros _. split; [|done]. by eexists. }
  pose proof (keys_of_lookup s ns k Hs) as Hkeys.
  destruct (Hget s Ho Hs) as [Hnone Hsome].
  assert (k ∉ keys_of s ns ↔ ¬ has_namespace s ns ∨ k ∉ keys_of s ns) as Habs.
  { split; [by right|]. intros [Hn|?]; [|done].
    unfold keys_of, leaves_of, has_namespace in *.
    destruct (root (db s) !! bytes_of_string ns); [|by intros ?%elem_of_nil].
    by destruct Hn. }
  repeat split.
  - intros (e & He & Hk). apply Habs. rewrite Hkeys. intros [v Hv].
    rewrite (Hsome v Hv) in He. done.
  - intros Hno%Habs. apply Hnone. rewrite Hkeys in Hno.
    by destruct (lookup_entry s ns k); [destruct Hno|].
  - intros (e & He & Hk). destruct (lookup_entry s ns k) as [v|] eqn:E.
    + by rewrite (Hsome v eq_refl) in He.
    + by apply Hnone.
  - intros _ [v Hv]%Hkeys. exists v. by apply Hsome.
  - intros v.
    assert (is_open (Put s ns k v).1) as Ho1 by (by apply Put_keeps_open).
    assert (db_sorted (Put s ns k v).1) as Hs1 by (by apply Put_keeps_sorted).
    apply Hget; [by apply Delete_keeps_open | by apply Delete_keeps_sorted |].
    rewrite (lookup_Delete _ _ _ _ _ Ho1 Hs1). by apply decide_True.
Qed.

Lemma Get_not_found_witness :
  not_found
    (Get (Delete (Put fresh_store "ns" key_user1 val_a).1 "ns" key_user1).1
       "ns" key_user1).2.
Proof.
  apply (Get_not_found fresh_store "ns" key_user1).
  - reflexivity.
  - apply map_Forall_empty.
Defined.

(** C7. On an open store, [Delete(ns, key)] fails with a [NotFoundError]
    when the namespace is absent, and otherwise returns no error: the
    entry of the key is gone afterwards, every other entry is as it was,
    and when the key was absent already the store is unchanged. *)
Theorem Delete_outcome s ns k :
  is_open s → db_sorted s →
  (¬ has_namespace s ns →
   not_found (Delete s ns k).2 ∧ (Delete s ns k).1 = s)
  ∧ (has_namespace s ns →
     (Delete s ns k).2 = None
     ∧ (k ∉ keys_of (Delete s ns k).1 ns)
     ∧ not_found (Get (Delete s ns k).1 ns k).2
     ∧ (∀ ns' k', (ns', k') ≠ (ns, k) →
          lookup_entry (Delete s ns k).1 ns' k' = lookup_entry s ns' k'))
  ∧ (has_namespace s ns → k ∉ keys_of s ns → Delete s ns k = (s, None)).
Proof.
  intros Ho Hs.
  pose proof (proj2 (Delete_keeps_open s ns k) Ho) as Ho'.
  pose proof (Delete_keeps_sorted s ns k Hs) as Hs'.
  assert (lookup_entry (Delete s ns k).1 ns k = None) as Hgone.
  { rewrite (lookup_Delete _ _ _ _ _ Ho Hs). by apply decide_True. }
  split; [|split].
  - intros Hn. rewrite (Delete_open _ _ _ Ho).
    destruct (root (db s) !! bytes_of_string ns) eqn:Hb;
      [destruct Hn; by eexists|].
    split; [by eexists | done].
  - intros [l Hl]. split; [|split; [|split]].
    + by rewrite (Delete_open _ _ _ Ho), Hl.
    + rewrite (keys_of_lookup _ _ _ Hs'), Hgone. by intros [? ?].
    + rewrite (Get_open _ _ _ Ho'). unfold lookup_entry in Hgone.
      destruct (root (db (Delete s ns k).1) !! bytes_of_string ns); simpl in *.
      * rewrite Hgone. by eexists.
      * by eexists.
    + intros ns' k' Hne. rewrite (lookup_Delete _ _ _ _ _ Ho Hs).
      apply decide_False. intros [-> ->]. done.
  - intros [l Hl] Hk. rewrite (Delete_open _ _ _ Ho), Hl.
    unfold keys_of, leaves_of in Hk. rewrite Hl in Hk. simpl in Hk.
    rewrite leaf_del_absent, insert_id by done. by rewrite store_eta.
Qed.

Lemma Delete_outcome_witness :
  (Delete (Put fresh_store "ns" key_user1 val_a).1 "ns" key_user2)
  = ((Put fresh_store "ns" key_user1 val_a).1, None).
Proof.
  apply (Delete_outcome (Put fresh_store "ns" key_user1 val_a).1 "ns" key_user2).
  - reflexivity.
  - apply Put_keeps_sorted, map_Forall_empty.
  - vm_compute. eauto.
  - vm_compute. intros [[=]|[]%elem_of_nil]%elem_of_cons.
Defined.

(** C8. Namespace isolation: a [Put] or a [Delete] on a namespace [a]
    changes nothing of what [Get], [ListKeys] and [KeysByPrefix] return on
    another namespace [b]; in particular [Put(a, k, v)] does not make a
    failing [Get(b, k)] succeed. *)
Theorem namespace_isolation s a b op :
  a ≠ b → op_namespace op = a →
  (∀ k, Get (apply_op s op).1 b k = Get s b k)
  ∧ ListKeys (apply_op s op).1 b = ListKeys s b
  ∧ (∀ p, KeysByPrefix (apply_op s op).1 b p = KeysByPrefix s b p)
  ∧ (∀ k v, (Get s b k).2 ≠ None → (Get (Put s a k v).1 b k).2 ≠ None).
Proof.
  intros Hab Hop.
  assert (Hiso : ∀ op', op_namespace op' = a →
    (∀ k, Get (apply_op s op').1 b k = Get s b k)
    ∧ ListKeys (apply_op s op').1 b = ListKeys s b
    ∧ (∀ p, KeysByPrefix (apply_op s op').1 b p = KeysByPrefix s b p)).
  { intros op' Hop'.
    destruct (apply_op_other_bucket s op' b) as [Ho Hb]; [congruence|].
    by apply reads_ext. }
  destruct (Hiso op Hop) as (Hget & Hlist & Hpre).
  repeat split; try done.
  intros k v. destruct (Hiso (OpPut a k v) eq_refl) as (Hget' & _).
  simpl in Hget'. by rewrite Hget'.
Qed.

Lemma namespace_isolation_witness :
  ListKeys (apply_op users_and_groups (OpPut "a" key_user1 val_a)).1 "ns"
  = ListKeys users_and_groups "ns".
Proof.
  apply (namespace_isolation users_and_groups "a" "ns"
           (OpPut "a" key_user1 val_a)).
  - discriminate.
  - reflexivity.
Defined.

(** C10. [KeysByPrefix] with the blank prefix is [ListKeys]: the seek to
    the blank prefix lands on the first key and every key begins with the
    blank prefix. *)
Theorem KeysByPrefix_blank_is_ListKeys s ns :
  KeysByPrefix s ns [] = ListKeys s ns.
Proof.
  assert (Hseek : ∀ l : Leaves, leaf_seek [] l = l).
  { intros [|[k v] l]; [done|]. simpl.
    destruct (bytes_ltb k []) eqn:E; [|done].
    by apply bytes_ltb_lt, bytes_lt_nil_r in E. }
  assert (Hloop : ∀ (l : Leaves) keys,
            KeysByPrefix_loop [] l keys = ListKeys_loop l keys).
  { induction l as [|[k v] l IH]; intros keys; [done|].
    cbn [KeysByPrefix_loop ListKeys_loop]. by rewrite HasPrefix_nil, IH. }
  unfold KeysByPrefix, ListKeys, DB_View.
  destruct (opened (db s)); [|done].
  destruct (Tx_Bucket (root (db s)) (bytes_of_string ns)); [|done].
  unfold Cursor_Seek, Cursor_First. cbn [cur_leaves cur_rest].
  by rewrite Hseek, Hloop.
Qed.

Lemma put_and_kept_snoc ops op ns k :
  put_and_kept (ops ++ [op]) ns k ↔
    (put_and_kept ops ns k ∧ op ≠ OpDelete ns k)
    ∨ (∃ v, op = OpPut ns k v ∧ (Put (run ops fresh_store) ns k v).2 = None).
Proof.
  unfold put_and_kept. split.
  - intros (pre & v & post & Heq & Hok & Hnd).
    apply snoc_split in Heq as [(-> & -> & <-)|(post' & -> & ->)].
    + right. eauto.
    + left. rewrite elem_of_app, list_elem_of_singleton in Hnd.
      split; [|naive_solver]. exists pre, v, post'. naive_solver.
  - intros [[(pre & v & post & -> & Hok & Hnd) Hne]|(v & -> & Hok)].
    + exists pre, v, (post ++ [op]). rewrite <- app_assoc.
      split; [done|]. split; [done|].
      rewrite elem_of_app, list_elem_of_singleton. naive_solver.
    + exists ops, v, []. split; [done|]. split; [done|]. apply not_elem_of_nil.
Qed.

(** The keys a store reached from a fresh one holds are those put and
    kept. *)
Lemma keys_of_run ops ns k :
  k ∈ keys_of (run ops fresh_store) ns ↔ put_and_kept ops ns k.
Proof.
  induction ops as [|op ops IH] using rev_ind.
  - split; [by intros ?%elem_of_nil|].
    intros (pre & v & post & Heq & _). by destruct pre.
  - pose proof (proj2 (run_keeps_open ops fresh_store) fresh_store_open) as Ho.
    pose proof (run_keeps_sorted ops _ fresh_store_sorted) as Hs.
    rewrite put_and_kept_snoc, <- IH, run_snoc.
    rewrite !keys_of_lookup by auto using apply_op_keeps_sorted.
    destruct op as [a k' v'|a k']; simpl.
    + rewrite (lookup_Put _ _ _ _ _ _ Ho). case_decide as Hd.
      * destruct Hd as (Ha & -> & ->). split; [|by eauto]. intros _. right.
        exists v'. split; [done|]. rewrite (Put_open _ _ _ _ Ho).
        by rewrite (proj2 (put_error_None _ _ _) Ha).
      * split; [by left|]. intros [[? _]|(v & [= -> -> ->] & Hok)]; [done|].
        destruct Hd. split; [|done]. apply put_error_None.
        rewrite (Put_open _ _ _ _ Ho) in Hok.
        by destruct (put_error ns k v).
    + rewrite (lookup_Delete _ _ _ _ _ Ho Hs). case_decide as Hd.
      * destruct Hd as [-> ->]. split; [by intros [? ?]|].
        intros [[_ ?]|(v & [=] & _)]. done.
      * split; [|by intros [[? _]|(v & [=] & _)]]. intros Hin. left.
        split; [done|]. intros [= -> ->]. by destruct Hd.
Qed.

Lemma sorted_NoDup (ks : list bytes) : StronglySorted bytes_lt ks → NoDup ks.
Proof.
  induction 1 as [|k ks Hs IH Hall]; constructor; [|done].
  intros Hin. eapply Forall_forall in Hall; [|done].
  by apply bytes_lt_irrefl in Hall.
Qed.



(** C5. On an open store, [KeysByPrefix(ns, prefix)] on an existing
    namespace returns exactly the keys of [ns] that begin with [prefix], in
    ascending byte order: they are the keys of [ListKeys(ns)] that pass
    [bytes.HasPrefix], in the same order.  On an absent namespace it fails
    with a [NotFoundError]. *)
Theorem KeysByPrefix_exact s ns p :
  is_open s → db_sorted s →
  (has_namespace s ns →
   KeysByPrefix s ns p
   = (List.filter (λ k, HasPrefix k p) (ListKeys s ns).1, None)
   ∧ (ListKeys s ns).1 = keys_of s ns
   ∧ StronglySorted bytes_lt (KeysByPrefix s ns p).1
   ∧ (∀ k, k ∈ (KeysByPrefix s ns p).1 ↔ k ∈ keys_of s ns ∧ p `prefix_of` k))
  ∧ (¬ has_namespace s ns →
     (KeysByPrefix s ns p).1 = [] ∧ not_found (KeysByPrefix s ns p).2).
Proof.
  intros Ho Hs.
  rewrite (KeysByPrefix_open _ _ _ Ho Hs), (ListKeys_open _ _ Ho).
  unfold has_namespace, keys_of, leaves_of.
  destruct (root (db s) !! bytes_of_string ns) as [l|] eqn:Hb; simpl.
  - split; [|by intros []]. intros _. apply Hs in Hb.
    split; [done|]. split; [done|]. split; [by apply filter_sorted|].
    intros k. by rewrite list_elem_of_In, List.filter_In, <- list_elem_of_In,
      HasPrefix_prefix.
  - split; [by intros [? ?]|]. intros _. split; [done|]. by eexists.
Qed.

Lemma KeysByPrefix_exact_witness :
  KeysByPrefix users_and_groups "ns" (bytes_of_string "user:")
  = (List.filter (λ k, HasPrefix k (bytes_of_string "user:"))
       (ListKeys users_and_groups "ns").1, None).
Proof.
  apply (KeysByPrefix_exact users_and_groups "ns" (bytes_of_string "user:")).
  - reflexivity.
  - apply run_keeps_sorted, map_Forall_empty.
  - vm_compute. eauto.
Defined.

(** The prefix scan of the specification: of "user:1", "user:2" and
    "group:1", the prefix "user:" selects "user:1" and "user:2", in that
    order. *)
Example prefix_scan_users :
  KeysByPrefix users_and_groups "ns" (bytes_of_string "user:")
  = ([key_user1; key_user2], None).
Proof. vm_compute. reflexivity. Qed.




(** * Further properties of the store

    What the code of [bbolt_store.go] does beyond the statements of the
    specification: the store after [Close], failed and repeated writes,
    the order of writes, the agreement of the read operations with one
    another, the errors each operation can return, and [Dump]. *)

(** ** Buckets in key order are determined by their entries *)

Section canonical.

Implicit Types (l : Leaves) (k key v : bytes).

Lemma leaves_ext l1 l2 :
  leaves_sorted l1 → leaves_sorted l2 →
  (∀ k, leaf_get k l1 = leaf_get k l2) → l1 = l2.
Proof.
  intros Hs1 Hs2 Hget.
  assert (Hel : ∀ e, e ∈ l1 ↔ e ∈ l2).
  { intros [k v]. rewrite <- !leaf_get_Some by done. by rewrite Hget. }
  clear Hget. revert l2 Hs2 Hel.
  induction l1 as [|[k1 v1] r1 IH]; intros [|[k2 v2] r2] Hs2 Hel.
  - done.
  - specialize (Hel (k2, v2)). set_solver.
  - specialize (Hel (k1, v1)). set_solver.
  - assert (Hl1 : ∀ k', k' ∈ r1.*1 → bytes_lt k1 k')
      by (intros k'; by apply sorted_head_least with v1).
    assert (Hl2 : ∀ k', k' ∈ r2.*1 → bytes_lt k2 k')
      by (intros k'; by apply sorted_head_least with v2).
    assert (Hhd : (k1, v1) = (k2, v2)).
    { assert (H1 : (k1, v1) ∈ (k2, v2) :: r2) by (apply Hel; left).
      assert (H2 : (k2, v2) ∈ (k1, v1) :: r1) by (apply Hel; left).
      apply elem_of_cons in H1 as [H1|H1]; [done|].
      apply elem_of_cons in H2 as [H2|H2]; [done|].
      exfalso. apply (bytes_lt_irrefl k1).
      apply bytes_lt_trans with k2.
      - apply Hl1. apply list_elem_of_fmap. by eexists (_, _).
      - apply Hl2. apply list_elem_of_fmap. by eexists (_, _). }
    injection Hhd as <- <-. f_equal.
    apply leaves_sorted_cons in Hs1 as [? ?], Hs2 as [? ?].
    apply IH; [done..|].
    intros [k v]. split; intros Hin.
    + assert (Hx : (k, v) ∈ (k1, v1) :: r2) by (apply Hel; by right).
      apply elem_of_cons in Hx as [E|Hx]; [|done].
      injection E as -> ->. exfalso. apply (bytes_lt_irrefl k1), Hl1.
      apply list_elem_of_fmap. by eexists (_, _).
    + assert (Hx : (k, v) ∈ (k1, v1) :: r1) by (apply Hel; by right).
      apply elem_of_cons in Hx as [E|Hx]; [|done].
      injection E as -> ->. exfalso. apply (bytes_lt_irrefl k1), Hl2.
      apply list_elem_of_fmap. by eexists (_, _).
Qed.

End canonical.

(** ** Writes on the leaves of one bucket *)
Section leaf_algebra.

Implicit Types (l : Leaves) (k key v : bytes).

Lemma leaf_put_put l k v1 v2 :
  leaf_put k v2 (leaf_put k v1 l) = leaf_put k v2 l.
Proof.
  induction l as [|[k' v'] l IH]; simpl.
  - by rewrite bytes_compare_refl.
  - destruct (bytes_compare k k') eqn:E; simpl.
    + by rewrite bytes_compare_refl.
    + by rewrite bytes_compare_refl.
    + by rewrite E, IH.
Qed.

Lemma leaf_del_put l k v : k ∉ l.*1 → leaf_del k (leaf_put k v l) = l.
Proof.
  induction l as [|[k' v'] l IH]; simpl; intros Hk.
  - by rewrite bytes_compare_refl.
  - apply not_elem_of_cons in Hk as [Hne Hk].
    destruct (bytes_compare k k') eqn:E; simpl.
    + by apply bytes_compare_eq in E.
    + by rewrite bytes_compare_refl.
    + by rewrite E, IH.
Qed.

Lemma leaf_del_del l k :
  leaves_sorted l → leaf_del k (leaf_del k l) = leaf_del k l.
Proof.
  intros Hs. apply leaf_del_absent. rewrite leaf_del_keys by done. naive_solver.
Qed.

Lemma leaf_put_comm l k1 v1 k2 v2 :
  leaves_sorted l → k1 ≠ k2 →
  leaf_put k1 v1 (leaf_put k2 v2 l) = leaf_put k2 v2 (leaf_put k1 v1 l).
Proof.
  intros Hs Hne. apply leaves_ext; [by do 2 apply leaf_put_sorted..|].
  intros k.
  destruct (decide (k1 = k)) as [<-|E1].
  { by rewrite leaf_get_put_eq, leaf_get_put_ne, leaf_get_put_eq. }
  rewrite (leaf_get_put_ne _ k1) by done.
  destruct (decide (k2 = k)) as [<-|E2].
  { by rewrite !leaf_get_put_eq. }
  by rewrite !leaf_get_put_ne.
Qed.

Lemma leaf_get_del l k k' :
  leaves_sorted l →
  leaf_get k' (leaf_del k l) = if decide (k = k') then None else leaf_get k' l.
Proof.
  intros Hs. case_decide as E.
  - subst. by apply leaf_get_del_eq.
  - by apply leaf_get_del_ne.
Qed.

Lemma leaf_get_put l k v k' :
  leaf_get k' (leaf_put k v l) = if decide (k = k') then Some v else leaf_get k' l.
Proof.
  case_decide as E.
  - subst. by apply leaf_get_put_eq.
  - by apply leaf_get_put_ne.
Qed.

Lemma leaf_put_del_comm l k1 v1 k2 :
  leaves_sorted l → k1 ≠ k2 →
  leaf_del k2 (leaf_put k1 v1 l) = leaf_put k1 v1 (leaf_del k2 l).
Proof.
  intros Hs Hne. apply leaves_ext.
  - by apply leaf_del_sorted, leaf_put_sorted.
  - by apply leaf_put_sorted, leaf_del_sorted.
  - intros k. rewrite leaf_get_del by (by apply leaf_put_sorted).
    rewrite !leaf_get_put, leaf_get_del by done.
    repeat case_decide; congruence.
Qed.

Lemma leaf_del_comm l k1 k2 :
  leaves_sorted l →
  leaf_del k1 (leaf_del k2 l) = leaf_del k2 (leaf_del k1 l).
Proof.
  intros Hs. apply leaves_ext; [by do 2 apply leaf_del_sorted..|].
  intros k. rewrite !leaf_get_del by (by try apply leaf_del_sorted).
  repeat case_decide; congruence.
Qed.

Lemma leaf_put_keys_present l k v :
  leaves_sorted l → k ∈ l.*1 → (leaf_put k v l).*1 = l.*1.
Proof.
  induction l as [|[k' v'] l IH]; simpl; intros Hs Hk.
  - by apply elem_of_nil in Hk.
  - destruct (bytes_compare_cases k k') as [[E Hlt]|[[E ->]|[E Hlt]]];
      rewrite E; simpl.
    + exfalso. apply elem_of_cons in Hk as [->|Hk].
      * by apply (bytes_lt_irrefl k').
      * apply (bytes_lt_irrefl k), (bytes_lt_trans _ k'); [done|].
        by apply (sorted_head_least _ v' l).
    + done.
    + f_equal. apply leaves_sorted_cons in Hs as [_ Hs]. apply IH; [done|].
      apply elem_of_cons in Hk as [->|Hk]; [|done].
      by apply bytes_lt_irrefl in Hlt.
Qed.

Lemma leaf_put_keys_absent l k v :
  k ∉ l.*1 → (leaf_put k v l).*1 ≡ₚ k :: l.*1.
Proof.
  induction l as [|[k' v'] l IH]; simpl; intros Hk; [done|].
  apply not_elem_of_cons in Hk as [Hne Hk].
  destruct (bytes_compare k k') eqn:E; simpl.
  - by apply bytes_compare_eq in E.
  - done.
  - rewrite IH by done. apply Permutation_swap.
Qed.

Lemma leaf_del_keys_filter l k :
  leaves_sorted l →
  (leaf_del k l).*1 = List.filter (λ k', bool_decide (k' ≠ k)) l.*1.
Proof.
  induction l as [|[k' v'] l IH]; simpl; intros Hs; [done|].
  assert (Hleast : ∀ k'', k'' ∈ l.*1 → bytes_lt k' k'')
    by (intros k''; by apply sorted_head_least with v').
  apply leaves_sorted_cons in Hs as [_ Hs].
  assert (Hrest : ¬ bytes_lt k' k →
            List.filter (λ k', bool_decide (k' ≠ k)) l.*1 = l.*1).
  { intros Hge. apply List.forallb_filter_id, List.forallb_forall.
    intros k'' Hin%list_elem_of_In. apply bool_decide_eq_true.
    intros ->. by apply Hge, Hleast. }
  destruct (bytes_compare_cases k k') as [[E Hlt]|[[E ->]|[E Hlt]]];
    rewrite E; simpl.
  - rewrite bool_decide_true by (intros ->; by apply bytes_lt_irrefl in Hlt).
    f_equal. symmetry. apply Hrest. intros H'.
    by apply (bytes_lt_irrefl k), (bytes_lt_trans _ k').
  - rewrite bool_decide_false by naive_solver.
    symmetry. apply Hrest, bytes_lt_irrefl.
  - rewrite bool_decide_true by (intros ->; by apply bytes_lt_irrefl in Hlt).
    simpl. f_equal. by apply IH.
Qed.

End leaf_algebra.

(* ================= extras ================= *)

(** ** The store after [Close] *)
Lemma run_closed ops s : ¬ is_open s → run ops s = s.
Proof.
  intros Hc. induction ops as [|op ops IH] using rev_ind; [done|].
  rewrite run_snoc, IH.
  destruct op; simpl; [by rewrite Put_closed | by rewrite Delete_closed].
Qed.

Lemma Close_not_open s : ¬ is_open (Close s).1.
Proof. unfold is_open, Close, DB_Close. simpl. done. Qed.

(** X1. [Close] returns no error, and on the closed store every operation
    fails with the engine's "database not open" before it looks at its
    arguments: [Put] and [Delete] leave the store as it is, [Get] returns
    a nil value, [ListKeys] and [KeysByPrefix] return no keys.  No
    sequence of writes changes a closed store, and closing it again
    returns no error. *)
Theorem Close_then_every_call_fails s ns k v p ops :
  let c := (Close s).1 in
  (Close s).2 = None
  ∧ Put c ns k v = (c, Some ErrDatabaseNotOpen)
  ∧ Get c ns k = (None, Some ErrDatabaseNotOpen)
  ∧ Delete c ns k = (c, Some ErrDatabaseNotOpen)
  ∧ ListKeys c ns = ([], Some ErrDatabaseNotOpen)
  ∧ KeysByPrefix c ns p = ([], Some ErrDatabaseNotOpen)
  ∧ Close c = (c, None)
  ∧ run ops c = c.
Proof.
  intros c. pose proof (Close_not_open s) as Hc. fold c in Hc.
  split; [done|].
  split; [by apply Put_closed|].
  split; [done|].
  split; [by apply Delete_closed|].
  split; [done|].
  split; [done|].
  split; [done|].
  by apply run_closed.
Qed.

(** ** Writes that fail, namespaces that stay *)

(** X2. A [Put] or a [Delete] that returns an error leaves the store
    exactly as it was; in particular a [Put] the engine rejects does not
    create its namespace. *)
Theorem failed_write_changes_nothing s op :
  (apply_op s op).2 ≠ None → (apply_op s op).1 = s.
Proof.
  destruct (is_open_dec s) as [Ho|Hc].
  - destruct op as [ns k v|ns k]; simpl.
    + rewrite Put_open by done. by destruct (put_error ns k v).
    + rewrite Delete_open by done.
      by destruct (root (db s) !! bytes_of_string ns).
  - destruct op as [ns k v|ns k]; simpl.
    + by rewrite Put_closed.
    + by rewrite Delete_closed.
Qed.

Lemma failed_write_changes_nothing_witness :
  (apply_op fresh_store (OpPut "ns" [] val_a)).1 = fresh_store.
Proof.
  apply (failed_write_changes_nothing fresh_store (OpPut "ns" [] val_a)).
  vm_compute. discriminate.
Defined.

Lemma apply_op_keeps_namespace s op ns :
  has_namespace s ns → has_namespace (apply_op s op).1 ns.
Proof.
  unfold has_namespace. intros Hn.
  destruct (is_open_dec s) as [Ho|Hc].
  - destruct op as [ns' k v|ns' k]; simpl.
    + rewrite Put_open by done. destruct (put_error ns' k v); [done|].
      cbn [fst db root]. rewrite lookup_insert_is_Some. 
      destruct (decide (bytes_of_string ns' = bytes_of_string ns)); auto.
    + rewrite Delete_open by done.
      destruct (root (db s) !! bytes_of_string ns') eqn:E; [|done].
      cbn [fst db root]. rewrite lookup_insert_is_Some.
      destruct (decide (bytes_of_string ns' = bytes_of_string ns)); auto.
  - destruct op as [ns' k v|ns' k]; simpl.
    + by rewrite Put_closed.
    + by rewrite Delete_closed.
Qed.

(** X3. A namespace that exists is never removed: it exists after every
    sequence of [Put] and [Delete] calls, whatever they return. *)
Theorem namespace_never_removed ops s ns :
  has_namespace s ns → has_namespace (run ops s) ns.
Proof.
  intros Hn. induction ops as [|op ops IH] using rev_ind; [done|].
  rewrite run_snoc. by apply apply_op_keeps_namespace.
Qed.

Lemma namespace_never_removed_witness :
  has_namespace (run [OpDelete "ns" key_user1; OpDelete "ns" key_user2;
                      OpDelete "ns" key_group1] users_and_groups) "ns".
Proof.
  apply (namespace_never_removed _ users_and_groups "ns").
  vm_compute. by eexists.
Defined.

(** ** A write and its inverse, a write and its repetition *)
Lemma store_eq s1 s2 :
  opened (db s1) = opened (db s2) → root (db s1) = root (db s2) → s1 = s2.
Proof. destruct s1 as [[??]], s2 as [[??]]. simpl. by intros -> ->. Qed.

(** The contents of the store after a write on an open store. *)
Lemma root_Put s ns k v :
  is_open s →
  root (db (Put s ns k v).1) =
    if decide (put_accepted ns k v)
    then <[bytes_of_string ns :=
             leaf_put k v (leaves_of (root (db s)) (bytes_of_string ns))]>
           (root (db s))
    else root (db s).
Proof.
  intros Ho. rewrite Put_open by done. case_decide as Ha.
  - apply put_error_None in Ha. by rewrite Ha.
  - destruct (put_error ns k v) eqn:E; [done|].
    by apply put_error_None in E.
Qed.

Lemma root_Delete s ns k :
  is_open s →
  root (db (Delete s ns k).1) =
    match root (db s) !! bytes_of_string ns with
    | Some l => <[bytes_of_string ns := leaf_del k l]> (root (db s))
    | None => root (db s)
    end.
Proof.
  intros Ho. rewrite Delete_open by done.
  by destruct (root (db s) !! bytes_of_string ns).
Qed.

(** X4. [Put] into a namespace that does not exist, followed by [Delete]
    of the same key, does not give back the store of before: the
    namespace stays, empty.  [ListKeys] on it returns no keys and no
    error, and [Get] fails with "clave no encontrada", where before the
    [Put] it failed with "bucket no encontrado". *)
Theorem Delete_last_key_leaves_namespace s ns k v :
  is_open s → ¬ has_namespace s ns → put_accepted ns k v →
  let s' := (Delete (Put s ns k v).1 ns k).1 in
  has_namespace s' ns
  ∧ s' ≠ s
  ∧ ListKeys s' ns = ([], None)
  ∧ Get s' ns k = (None, Some (Errorf_clave_no_encontrada (string_of_bytes k)))
  ∧ Get s ns k = (None, Some (Errorf_bucket_no_encontrado ns)).
Proof.
  intros Ho Hn Ha s'.
  assert (Hnone : root (db s) !! bytes_of_string ns = None).
  { by apply eq_None_not_Some. }
  assert (Ho1 : is_open (Put s ns k v).1) by by apply Put_keeps_open.
  assert (Ho' : is_open s') by by apply Delete_keeps_open.
  assert (Hroot : root (db s') = <[bytes_of_string ns := []]> (root (db s))).
  { unfold s'. rewrite root_Delete by done.
    rewrite root_Put by done.
    rewrite decide_True by done. rewrite lookup_insert_eq, insert_insert_eq.
    unfold leaves_of. rewrite Hnone. simpl. by rewrite bytes_compare_refl. }
  assert (Hl : root (db s') !! bytes_of_string ns = Some []).
  { by rewrite Hroot, lookup_insert_eq. }
  split; [by eexists|].
  split. { intros E. rewrite E in Hl. congruence. }
  split. { rewrite ListKeys_open by done. by rewrite Hl. }
  split. { rewrite Get_open by done. by rewrite Hl. }
  rewrite Get_open by done. by rewrite Hnone.
Qed.

Lemma Delete_last_key_leaves_namespace_witness :
  ListKeys (Delete (Put fresh_store "ns" key_user1 val_a).1 "ns" key_user1).1 "ns"
  = ([], None).
Proof.
  apply (Delete_last_key_leaves_namespace fresh_store "ns" key_user1 val_a).
  - reflexivity.
  - vm_compute. by intros [? ?].
  - vm_compute. repeat split; discriminate.
Defined.

(** X5. On an open store, [Put] of a key that its namespace, which exists,
    does not hold, followed by [Delete] of the key, gives back the store
    of before. *)
Theorem Put_Delete_restores s ns k v :
  is_open s → has_namespace s ns → k ∉ keys_of s ns → put_accepted ns k v →
  (Delete (Put s ns k v).1 ns k).1 = s.
Proof.
  intros Ho [l Hl] Hk Ha.
  assert (Ho1 : is_open (Put s ns k v).1) by by apply Put_keeps_open.
  apply store_eq.
  - transitivity true; [by apply Delete_keeps_open | done].
  - rewrite root_Delete by done.
    rewrite root_Put by done.
    rewrite decide_True by done. rewrite lookup_insert_eq, insert_insert_eq.
    unfold keys_of in Hk. unfold leaves_of in *. rewrite Hl in *. simpl in *.
    rewrite leaf_del_put by done. by apply insert_id.
Qed.

Lemma Put_Delete_restores_witness :
  (Delete (Put users_and_groups "ns" val_a val_b).1 "ns" val_a).1
  = users_and_groups.
Proof.
  apply (Put_Delete_restores users_and_groups "ns" val_a val_b).
  - reflexivity.
  - vm_compute. by eexists.
  - vm_compute. intros H. repeat (apply elem_of_cons in H as [H|H]; [discriminate|]).
    by apply elem_of_nil in H.
  - vm_compute. repeat split; discriminate.
Defined.

(** X6. [Delete] is idempotent: a second [Delete] of the same key returns
    what the first returned and leaves the store as the first left it. *)
Theorem Delete_idempotent s ns k :
  db_sorted s → Delete (Delete s ns k).1 ns k = Delete s ns k.
Proof.
  intros Hs. destruct (is_open_dec s) as [Ho|Hc].
  - rewrite (Delete_open s) by done.
    destruct (root (db s) !! bytes_of_string ns) as [l|] eqn:Hl; cbn [fst].
    + rewrite Delete_open by done. cbn [db root].
      rewrite lookup_insert_eq, insert_insert_eq.
      rewrite leaf_del_del; [done|]. by apply (Hs _ _ Hl).
    + rewrite Delete_open by done. by rewrite Hl.
  - rewrite (Delete_closed s) by done. cbn [fst]. by apply Delete_closed.
Qed.

Lemma Delete_idempotent_witness :
  Delete (Delete users_and_groups "ns" key_user1).1 "ns" key_user1
  = Delete users_and_groups "ns" key_user1.
Proof.
  apply (Delete_idempotent users_and_groups "ns" key_user1).
  apply run_keeps_sorted, map_Forall_empty.
Defined.

Lemma Put_ok_open_accepted s ns k v :
  (Put s ns k v).2 = None → is_open s ∧ put_accepted ns k v.
Proof.
  intros H. destruct (is_open_dec s) as [Ho|Hc].
  - split; [done|]. apply put_error_None.
    rewrite Put_open in H by done. by destruct (put_error ns k v).
  - by rewrite Put_closed in H.
Qed.

(** X7. The last write wins: when [Put(ns, k, v2)] succeeds, doing it after
    a [Put(ns, k, v1)] gives the same store and the same result as doing
    it alone; nothing of [v1] remains. *)
Theorem Put_last_write_wins s ns k v1 v2 :
  (Put s ns k v2).2 = None →
  Put (Put s ns k v1).1 ns k v2 = Put s ns k v2.
Proof.
  intros [Ho Ha]%Put_ok_open_accepted.
  assert (Ho1 : is_open (Put s ns k v1).1) by by apply Put_keeps_open.
  rewrite (Put_open s ns k v1) by done.
  destruct (put_error ns k v1) eqn:E1; [done|]. cbn [fst].
  rewrite !Put_open by done.
  apply put_error_None in Ha. rewrite Ha. cbn [db root].
  rewrite leaves_of_insert, decide_True by done.
  by rewrite leaf_put_put, insert_insert_eq.
Qed.

Lemma Put_last_write_wins_witness :
  Put (Put fresh_store "ns" key_user1 val_a).1 "ns" key_user1 val_b
  = Put fresh_store "ns" key_user1 val_b.
Proof.
  apply (Put_last_write_wins fresh_store "ns" key_user1 val_a val_b).
  reflexivity.
Defined.

(** ** Equality of stores *)
Section extensionality.

Implicit Types (s : BboltStore) (ns : string) (k v : bytes).

Lemma bytes_of_string_of_bytes (b : bytes) :
  bytes_of_string (string_of_bytes b) = b.
Proof. apply String.list_byte_of_string_of_list_byte. Qed.

(** Two stores whose buckets are in key order are equal when they have
    the same namespaces and the same entries. *)
Lemma store_ext s1 s2 :
  opened (db s1) = opened (db s2) →
  db_sorted s1 → db_sorted s2 →
  (∀ ns, has_namespace s1 ns ↔ has_namespace s2 ns) →
  (∀ ns k, lookup_entry s1 ns k = lookup_entry s2 ns k) →
  s1 = s2.
Proof.
  intros Ho Hs1 Hs2 Hn Hl. apply store_eq; [done|].
  apply map_eq. intros b.
  specialize (Hn (string_of_bytes b)).
  assert (Hl' := Hl (string_of_bytes b)).
  unfold has_namespace, lookup_entry in Hn, Hl'.
  rewrite bytes_of_string_of_bytes in Hn, Hl'.
  destruct (root (db s1) !! b) as [l1|] eqn:E1,
           (root (db s2) !! b) as [l2|] eqn:E2.
  - f_equal. apply leaves_ext; [by apply (Hs1 _ _ E1) | by apply (Hs2 _ _ E2) |].
    intros k. apply (Hl' k).
  - destruct Hn as [Hn _]. by destruct Hn.
  - destruct Hn as [_ Hn]. by destruct Hn.
  - done.
Qed.

Lemma has_namespace_apply_op s op ns :
  is_open s →
  has_namespace (apply_op s op).1 ns ↔
    has_namespace s ns
    ∨ (∃ k v, op = OpPut ns k v ∧ put_accepted ns k v).
Proof.
  intros Ho. unfold has_namespace. destruct op as [ns' k v|ns' k]; simpl.
  - rewrite root_Put by done. case_decide as Ha.
    + rewrite lookup_insert_is_Some. split.
      * intros [E|[_ ?]]; [|by left]. apply bytes_of_string_inj in E as ->.
        right. by exists k, v.
      * intros [?|(k'&v'&E&_)].
        -- destruct (decide (bytes_of_string ns' = bytes_of_string ns)); auto.
        -- injection E as -> _ _. by left.
    + split; [by left|]. intros [?|(k'&v'&E&?)]; [done|].
      injection E as -> -> ->. done.
  - rewrite root_Delete by done.
    destruct (root (db s) !! bytes_of_string ns') eqn:E.
    + rewrite lookup_insert_is_Some. split.
      * intros [E'|[_ ?]]; [|by left]. left.
        apply bytes_of_string_inj in E' as ->. by eexists.
      * intros [?|(?&?&?&_)]; [|done].
        destruct (decide (bytes_of_string ns' = bytes_of_string ns)); auto.
    + split; [by left|]. by intros [?|(?&?&?&_)].
Qed.

Lemma lookup_apply_op s op ns k :
  is_open s → db_sorted s →
  lookup_entry (apply_op s op).1 ns k =
    match op with
    | OpPut ns' k' v =>
        if decide (put_accepted ns' k' v ∧ ns = ns' ∧ k = k') then Some v
        else lookup_entry s ns k
    | OpDelete ns' k' =>
        if decide (ns = ns' ∧ k = k') then None else lookup_entry s ns k
    end.
Proof.
  intros Ho Hs. destruct op; simpl; [by apply lookup_Put | by apply lookup_Delete].
Qed.

End extensionality.

(** X8. Two writes ([Put] or [Delete]) on different (namespace, key) pairs
    commute: the store after both is the same in either order. *)
Theorem writes_commute s op1 op2 :
  db_sorted s →
  (op_namespace op1, op_key op1) ≠ (op_namespace op2, op_key op2) →
  (apply_op (apply_op s op1).1 op2).1 = (apply_op (apply_op s op2).1 op1).1.
Proof.
  intros Hs Hne. destruct (is_open_dec s) as [Ho|Hc].
  - assert (Ho1 : is_open (apply_op s op1).1) by by apply apply_op_keeps_open.
    assert (Ho2 : is_open (apply_op s op2).1) by by apply apply_op_keeps_open.
    assert (Hs1 : db_sorted (apply_op s op1).1) by by apply apply_op_keeps_sorted.
    assert (Hs2 : db_sorted (apply_op s op2).1) by by apply apply_op_keeps_sorted.
    apply store_ext.
    + transitivity true; [|symmetry]; by apply apply_op_keeps_open.
    + by apply apply_op_keeps_sorted.
    + by apply apply_op_keeps_sorted.
    + intros ns. rewrite !has_namespace_apply_op by done. tauto.
    + intros ns k. rewrite !lookup_apply_op by done.
      destruct op1 as [ns1 k1 v1|ns1 k1], op2 as [ns2 k2 v2|ns2 k2];
        simpl in Hne; repeat case_decide; try done; naive_solver.
  - assert (H1 : ∀ op, (apply_op s op).1 = s).
    { intros [??|??]; simpl; [by rewrite Put_closed | by rewrite Delete_closed]. }
    by rewrite !H1.
Qed.

Lemma writes_commute_witness :
  (apply_op (apply_op fresh_store (OpPut "ns" key_user1 val_a)).1
     (OpDelete "ns" key_user2)).1
  = (apply_op (apply_op fresh_store (OpDelete "ns" key_user2)).1
       (OpPut "ns" key_user1 val_a)).1.
Proof.
  apply (writes_commute fresh_store (OpPut "ns" key_user1 val_a)
           (OpDelete "ns" key_user2)).
  - apply fresh_store_sorted.
  - discriminate.
Defined.

(** ** The read operations agree *)
Lemma elem_of_List_filter {A} (f : A → bool) (l : list A) (x : A) :
  x ∈ List.filter f l ↔ x ∈ l ∧ f x = true.
Proof. by rewrite list_elem_of_In, List.filter_In, <- list_elem_of_In. Qed.

(** X9. On an open store, [Get(ns, k)] succeeds exactly when [ListKeys(ns)]
    lists [k], which is exactly when [KeysByPrefix(ns, k)] lists [k]; and
    every key a [KeysByPrefix] returns can be fetched with [Get]. *)
Theorem Get_succeeds_iff_listed s ns k :
  is_open s → db_sorted s →
  ((Get s ns k).2 = None ↔ k ∈ (ListKeys s ns).1)
  ∧ (k ∈ (ListKeys s ns).1 ↔ k ∈ (KeysByPrefix s ns k).1)
  ∧ (∀ p k', k' ∈ (KeysByPrefix s ns p).1 → (Get s ns k').2 = None).
Proof.
  intros Ho Hs.
  assert (Hget : ∀ k, (Get s ns k).2 = None ↔ k ∈ (ListKeys s ns).1).
  { intros k'. rewrite Get_open, ListKeys_open by done.
    destruct (root (db s) !! bytes_of_string ns) as [l|] eqn:Hl; simpl.
    - rewrite <- leaf_get_is_Some by (by apply (Hs _ _ Hl)).
      destruct (leaf_get k' l); simpl; split; try done; try by eexists.
    - split; [done|]. by intros ?%elem_of_nil. }
  split; [done|].
  assert (Hkbp : ∀ p k', k' ∈ (KeysByPrefix s ns p).1 ↔
            k' ∈ (ListKeys s ns).1 ∧ HasPrefix k' p = true).
  { intros p k'. rewrite KeysByPrefix_open, ListKeys_open by done.
    destruct (root (db s) !! bytes_of_string ns) as [l|]; simpl.
    - apply (elem_of_List_filter (λ k, HasPrefix k p)).
    - split; [by intros ?%elem_of_nil | by intros [?%elem_of_nil _]]. }
  split.
  - rewrite Hkbp. split; [|tauto]. intros H. split; [done|].
    by apply HasPrefix_prefix.
  - intros p k' [Hin _]%Hkbp. by apply Hget.
Qed.

Lemma Get_succeeds_iff_listed_witness :
  (Get users_and_groups "ns" key_user2).2 = None
  ↔ key_user2 ∈ (ListKeys users_and_groups "ns").1.
Proof.
  apply (Get_succeeds_iff_listed users_and_groups "ns" key_user2).
  - reflexivity.
  - apply run_keeps_sorted, map_Forall_empty.
Defined.

Lemma filter_filter_implied {A} (f g : A → bool) (l : list A) :
  (∀ x, f x = true → g x = true) →
  List.filter f (List.filter g l) = List.filter f l.
Proof.
  intros Himp. induction l as [|x l IH]; simpl; [done|].
  destruct (g x) eqn:Eg; simpl.
  - by rewrite IH.
  - rewrite IH. destruct (f x) eqn:Ef; [|done].
    apply Himp in Ef. congruence.
Qed.

Lemma filter_sublist {A} (f : A → bool) (l : list A) :
  List.filter f l `sublist_of` l.
Proof.
  induction l as [|x l IH]; simpl; [done|].
  destruct (f x); by constructor.
Qed.

(** X10. Extending the prefix narrows the result: the keys of
    [KeysByPrefix(ns, p ++ q)] are those of [KeysByPrefix(ns, p)] that
    begin with [p ++ q], in the same order, and the keys of
    [KeysByPrefix(ns, p)] are a subsequence of those of [ListKeys(ns)]. *)
Theorem KeysByPrefix_narrow s ns p q :
  is_open s → db_sorted s →
  (KeysByPrefix s ns (p ++ q)).1
  = List.filter (λ k, HasPrefix k (p ++ q)) (KeysByPrefix s ns p).1
  ∧ (KeysByPrefix s ns (p ++ q)).1 `sublist_of` (KeysByPrefix s ns p).1
  ∧ (KeysByPrefix s ns p).1 `sublist_of` (ListKeys s ns).1.
Proof.
  intros Ho Hs. rewrite !KeysByPrefix_open, ListKeys_open by done.
  destruct (root (db s) !! bytes_of_string ns) as [l|]; simpl; [|done].
  assert (E : List.filter (λ k, HasPrefix k (p ++ q)) l.*1
              = List.filter (λ k, HasPrefix k (p ++ q))
                  (List.filter (λ k, HasPrefix k p) l.*1)).
  { symmetry. apply filter_filter_implied. intros k.
    rewrite !HasPrefix_prefix. intros H. by apply prefix_app_l in H. }
  split; [done|]. split; [|apply filter_sublist].
  rewrite E. apply filter_sublist.
Qed.

Lemma KeysByPrefix_narrow_witness :
  (KeysByPrefix users_and_groups "ns" (bytes_of_string "user:" ++ bytes_of_string "2")).1
  = List.filter (λ k, HasPrefix k (bytes_of_string "user:" ++ bytes_of_string "2"))
      (KeysByPrefix users_and_groups "ns" (bytes_of_string "user:")).1.
Proof.
  apply (KeysByPrefix_narrow users_and_groups "ns").
  - reflexivity.
  - apply run_keeps_sorted, map_Forall_empty.
Defined.

(** X11. The errors of each operation.  [Get] returns a nil value exactly
    when it returns an error; [ListKeys] and [KeysByPrefix] return no
    keys when they return an error.  An error of [Get], [Delete],
    [ListKeys] or [KeysByPrefix] is the engine's "database not open" or a
    not-found error of the store; an error of [Put] is never a not-found
    error: it is "database not open" or an error of the engine about the
    arguments. *)
Theorem errors_by_operation s ns k v p :
  ((Get s ns k).1 = None ↔ (Get s ns k).2 ≠ None)
  ∧ ((ListKeys s ns).2 ≠ None → (ListKeys s ns).1 = [])
  ∧ ((KeysByPrefix s ns p).2 ≠ None → (KeysByPrefix s ns p).1 = [])
  ∧ (∀ e, (Get s ns k).2 = Some e ∨ (Delete s ns k).2 = Some e
          ∨ (ListKeys s ns).2 = Some e ∨ (KeysByPrefix s ns p).2 = Some e →
          e = ErrDatabaseNotOpen ∨ error_kind e = NotFoundError)
  ∧ (∀ e, (Put s ns k v).2 = Some e →
          e = ErrDatabaseNotOpen ∨ error_kind e = EngineError).
Proof.
  destruct (is_open_dec s) as [Ho|Hc].
  - rewrite Get_open, Delete_open, ListKeys_open, Put_open by done.
    unfold KeysByPrefix, DB_View, Tx_Bucket. rewrite Ho.
    destruct (root (db s) !! bytes_of_string ns) as [l|]; simpl.
    + split. { destruct (leaf_get k l); simpl; split; done. }
      split; [done|]. split; [done|]. split.
      * intros e [H|[H|[H|H]]]; try done.
        destruct (leaf_get k l); simpl in H; [done|].
        injection H as <-. by right.
      * intros e H. unfold put_error in H. right.
        repeat case_decide; simpl in H; simplify_eq; done.
    + split; [done|]. split; [done|]. split; [done|]. split.
      * intros e [H|[H|[H|H]]]; simpl in H; injection H as <-; by right.
      * intros e H. unfold put_error in H. right.
        repeat case_decide; simpl in H; simplify_eq; done.
  - rewrite Put_closed, Delete_closed by done.
    unfold Get, ListKeys, KeysByPrefix, DB_View.
    destruct (opened (db s)) eqn:E; [done|]. simpl.
    split; [done|]. split; [done|]. split; [done|]. split.
    + intros e [H|[H|[H|H]]]; injection H as <-; by left.
    + intros e H; injection H as <-; by left.
Qed.

(** X12. On an open store, a [Put(ns, k, v)] changes the value [Get]
    returns for no other (namespace, key) pair.  The error of a failing
    [Get] is the same too, except in the namespace the [Put] created:
    there [Get] of another key failed with "bucket no encontrado" before
    and fails with "clave no encontrada" afterwards. *)
Theorem Put_changes_only_its_pair s ns k v ns' k' :
  is_open s → (ns', k') ≠ (ns, k) →
  (Get (Put s ns k v).1 ns' k').1 = (Get s ns' k').1
  ∧ (has_namespace s ns ∨ ns' ≠ ns →
     Get (Put s ns k v).1 ns' k' = Get s ns' k')
  ∧ (¬ has_namespace s ns → put_accepted ns k v → k' ≠ k →
     Get s ns k' = (None, Some (Errorf_bucket_no_encontrado ns))
     ∧ Get (Put s ns k v).1 ns k'
       = (None, Some (Errorf_clave_no_encontrada (string_of_bytes k')))).
Proof.
  intros Ho Hne.
  assert (Ho1 : is_open (Put s ns k v).1) by by apply Put_keeps_open.
  assert (Hval : ∀ s0 ns0 k0, is_open s0 →
            (Get s0 ns0 k0).1 = lookup_entry s0 ns0 k0).
  { intros s0 ns0 k0 H0. rewrite Get_open by done. unfold lookup_entry.
    destruct (root (db s0) !! bytes_of_string ns0) as [l|]; simpl; [|done].
    by destruct (leaf_get k0 l). }
  split.
  { rewrite !Hval, lookup_Put by done. rewrite decide_False; [done|].
    intros (_&->&->). done. }
  split.
  - intros Hcase. rewrite !(Get_open _ ns' k'), root_Put by done.
    case_decide as Ha; [|done].
    destruct (decide (ns' = ns)) as [->|Hns].
    + destruct Hcase as [[l Hl]|?]; [|done].
      rewrite lookup_insert_eq, Hl. unfold leaves_of. rewrite Hl. simpl.
      rewrite leaf_get_put_ne; [done|]. congruence.
    + rewrite lookup_insert_ne; [done|]. by intros ?%bytes_of_string_inj.
  - intros Hn Ha Hk. apply eq_None_not_Some in Hn.
    rewrite !(Get_open _ ns k'), root_Put by done.
    rewrite decide_True, lookup_insert_eq, Hn by done.
    split; [done|]. unfold leaves_of. rewrite Hn.
    cbn [default from_option id]. by rewrite leaf_get_put_ne.
Qed.

Lemma Put_changes_only_its_pair_witness :
  (Get (Put fresh_store "ns" key_user1 val_a).1 "ns" key_user2).1
  = (Get fresh_store "ns" key_user2).1.
Proof.
  apply (Put_changes_only_its_pair fresh_store "ns" key_user1 val_a
           "ns" key_user2).
  - reflexivity.
  - discriminate.
Defined.

(** X13. [ListKeys] after one write on an open store.  After a [Put] the
    engine accepts, the keys are those of before when the key was among
    them, and those of before with the key added otherwise; after a
    [Delete] on an existing namespace they are those of before without
    the key, in the same order. *)
Theorem ListKeys_after_write s ns k v :
  is_open s → db_sorted s →
  (put_accepted ns k v →
   ∃ keys, ListKeys (Put s ns k v).1 ns = (keys, None)
     ∧ (k ∈ (ListKeys s ns).1 → keys = (ListKeys s ns).1)
     ∧ (k ∉ (ListKeys s ns).1 → keys ≡ₚ k :: (ListKeys s ns).1))
  ∧ (has_namespace s ns →
     ListKeys (Delete s ns k).1 ns
     = (List.filter (λ k', bool_decide (k' ≠ k)) (ListKeys s ns).1, None)).
Proof.
  intros Ho Hs.
  assert (Ho1 : is_open (Put s ns k v).1) by by apply Put_keeps_open.
  assert (Ho2 : is_open (Delete s ns k).1) by by apply Delete_keeps_open.
  split.
  - intros Ha. rewrite !ListKeys_open, root_Put by done.
    rewrite decide_True, lookup_insert_eq by done. eexists. split; [done|].
    unfold leaves_of.
    destruct (root (db s) !! bytes_of_string ns) as [l|] eqn:Hl; simpl.
    + split.
      * apply leaf_put_keys_present. by apply (Hs _ _ Hl).
      * apply leaf_put_keys_absent.
    + split; [by intros ?%elem_of_nil | done].
  - intros [l Hl]. rewrite !ListKeys_open, root_Delete by done.
    rewrite Hl, lookup_insert_eq. simpl. f_equal.
    apply leaf_del_keys_filter. by apply (Hs _ _ Hl).
Qed.

Lemma ListKeys_after_write_witness :
  ListKeys (Delete users_and_groups "ns" key_user1).1 "ns"
  = (List.filter (λ k', bool_decide (k' ≠ key_user1))
       (ListKeys users_and_groups "ns").1, None).
Proof.
  apply (ListKeys_after_write users_and_groups "ns" key_user1 val_a).
  - reflexivity.
  - apply run_keeps_sorted, map_Forall_empty.
  - vm_compute. by eexists.
Defined.

(** X14. Every entry [Get] finds in a store built from a fresh one by
    [Put] and [Delete] calls is within what the engine accepts: a
    namespace and a key that are not empty, a key of at most 32768 bytes
    and a value of at most 2147483646 bytes. *)
Theorem stored_entries_within_limits ops ns k v :
  Get (run ops fresh_store) ns k = (Some v, None) → put_accepted ns k v.
Proof.
  intros H. apply Get_Some_lookup in H; [|apply run_keeps_open, fresh_store_open].
  revert ns k v H. induction ops as [|op ops IH] using rev_ind; intros ns k v H.
  - done.
  - rewrite run_snoc, lookup_apply_op in H.
    + destruct op as [ns' k' v'|ns' k']; case_decide as E.
      * destruct E as (Ha&->&->). by injection H as <-.
      * by apply IH.
      * done.
      * by apply IH.
    + apply run_keeps_open, fresh_store_open.
    + apply run_keeps_sorted, map_Forall_empty.
Qed.

Lemma stored_entries_within_limits_witness :
  put_accepted "ns" key_user2 val_b.
Proof.
  apply (stored_entries_within_limits
           [OpPut "ns" key_user1 val_a; OpPut "ns" key_user2 val_b;
            OpPut "ns" key_group1 val_a] "ns" key_user2 val_b).
  reflexivity.
Defined.

(** ** The scan of [KeysByPrefix] *)
Lemma KeysByPrefix_loop_segment p rest keys :
  ∃ found after,
    KeysByPrefix_loop p rest keys = keys ++ found
    ∧ rest.*1 = found ++ after
    ∧ Forall (λ k, HasPrefix k p = true) found
    ∧ (∀ k, head after = Some k → HasPrefix k p = false).
Proof.
  revert keys. induction rest as [|[k v] rest IH]; intros keys.
  - exists [], []. by rewrite app_nil_r.
  - cbn [KeysByPrefix_loop]. destruct (HasPrefix k p) eqn:E.
    + destruct (IH (keys ++ [k])) as (found & after & Hloop & Hrest & Hf & Ha).
      exists (k :: found), after. rewrite Hloop, <- app_assoc.
      rewrite fmap_cons, Hrest. repeat split; try done. by constructor.
    + exists [], ((k, v) :: rest).*1. rewrite app_nil_r.
      repeat split; try done. simpl. by intros ? [= <-].
Qed.

Lemma leaf_seek_suffix p (l : Leaves) :
  ∃ before, l = before ++ leaf_seek p l
    ∧ Forall (λ k, bytes_lt k p) before.*1.
Proof.
  induction l as [|[k v] l IH]; simpl.
  - by exists [].
  - destruct (bytes_ltb k p) eqn:E.
    + destruct IH as (before & Hl & Hb). exists ((k, v) :: before).
      split; [simpl; congruence|]. constructor; [|done].
      by apply bytes_ltb_lt.
    + by exists [].
Qed.

(** X15. The keys [KeysByPrefix(ns, prefix)] returns are one contiguous run
    of the keys [ListKeys(ns)] returns: the keys before the run are below
    the prefix in byte order, the keys of the run begin with the prefix,
    and the key after the run, where the scan stops, does not. *)
Theorem KeysByPrefix_contiguous s ns p keys :
  KeysByPrefix s ns p = (keys, None) →
  ∃ before after,
    (ListKeys s ns).1 = before ++ keys ++ after
    ∧ Forall (λ k, bytes_lt k p) before
    ∧ Forall (λ k, p `prefix_of` k) keys
    ∧ (∀ k, head after = Some k → ¬ p `prefix_of` k).
Proof.
  unfold KeysByPrefix, ListKeys, DB_View, Tx_Bucket, Bucket_Cursor, leaves_of.
  destruct (opened (db s)); [|done].
  destruct (root (db s) !! bytes_of_string ns) as [l|] eqn:Hl; [|done].
  cbn [Cursor_Seek Cursor_First cur_leaves cur_rest]. rewrite Hl.
  cbn [default from_option id].
  intros [= <-]. rewrite ListKeys_loop_spec. simpl.
  destruct (leaf_seek_suffix p l) as (before & Hb & Hlt).
  destruct (KeysByPrefix_loop_segment p (leaf_seek p l) [])
    as (found & after & -> & Hf & Hpre & Hafter).
  exists before.*1, after. simpl. split; [|split; [done|split]].
  - rewrite Hb at 1. by rewrite fmap_app, Hf.
  - eapply Forall_impl; [done|]. intros k. by rewrite HasPrefix_prefix.
  - intros k Hk. rewrite <- HasPrefix_prefix. apply Hafter in Hk. congruence.
Qed.

Lemma KeysByPrefix_contiguous_witness :
  ∃ before after,
    (ListKeys users_and_groups "ns").1 = before ++ [key_user1; key_user2] ++ after
    ∧ Forall (λ k, bytes_lt k (bytes_of_string "user:")) before
    ∧ Forall (λ k, bytes_of_string "user:" `prefix_of` k) [key_user1; key_user2]
    ∧ (∀ k, head after = Some k → ¬ bytes_of_string "user:" `prefix_of` k).
Proof.
  apply (KeysByPrefix_contiguous users_and_groups "ns" (bytes_of_string "user:")).
  reflexivity.
Defined.

(** ** [Dump] *)
Section dump.

#[local] Instance name_le_trans : Transitive name_le.
Proof.
  intros x y z. unfold name_le. intros Hxy Hyz.
  destruct (bytes_compare_cases x.1 y.1) as [[_ H1]|[[_ H1]|[E _]]]; [| |done].
  - destruct (bytes_compare_cases y.1 z.1) as [[_ H2]|[[_ H2]|[E _]]]; [| |done].
    + pose proof (bytes_lt_trans _ _ _ H1 H2) as H3. unfold bytes_lt in H3.
      by rewrite H3.
    + rewrite <- H2. unfold bytes_lt in H1. by rewrite H1.
  - by rewrite H1.
Qed.

#[local] Instance name_le_total : Total name_le.
Proof.
  intros x y. unfold name_le.
  destruct (bytes_compare_cases x.1 y.1) as [[E _]|[[E _]|[_ H]]].
  - left. by rewrite E.
  - left. by rewrite E.
  - right. unfold bytes_lt in H. by rewrite H.
Qed.

Lemma Tx_buckets_elem (tx : Tx) name l :
  (name, l) ∈ Tx_buckets tx ↔ tx !! name = Some l.
Proof.
  unfold Tx_buckets. rewrite merge_sort_Permutation. apply elem_of_map_to_list.
Qed.

Lemma Tx_buckets_sorted (tx : Tx) :
  StronglySorted bytes_lt (Tx_buckets tx).*1.
Proof.
  assert (Hnd : NoDup (Tx_buckets tx).*1).
  { unfold Tx_buckets. rewrite merge_sort_Permutation.
    apply NoDup_fst_map_to_list. }
  assert (Hs : StronglySorted name_le (Tx_buckets tx))
    by (apply StronglySorted_merge_sort; apply _).
  induction Hs as [|x l Hs IH Hall]; simpl; [constructor|].
  apply NoDup_cons in Hnd as [Hx Hnd].
  constructor; [by apply IH|].
  apply Forall_fmap, Forall_forall. intros y Hy. simpl.
  rewrite Forall_forall in Hall. specialize (Hall y Hy). unfold name_le in Hall.
  destruct (bytes_compare_cases x.1 y.1) as [[_ H]|[[_ H]|[E _]]]; [done| |done].
  exfalso. apply Hx. rewrite H. apply list_elem_of_fmap. by exists y.
Qed.

Lemma ForEach_loop_print {K V} (fn : K → V → Stdout → Stdout * option error)
    (lines : K * V → list string) (items : list (K * V)) (out : Stdout) :
  (∀ k v out, (k, v) ∈ items → fn k v out = (out ++ lines (k, v), None)) →
  ForEach_loop fn items out = (out ++ flat_map lines items, None).
Proof.
  revert out. induction items as [|[k v] items IH]; intros out Hfn; simpl.
  - by rewrite app_nil_r.
  - rewrite Hfn by left. rewrite IH, app_assoc; [done|].
    intros k' v' out' Hin. apply Hfn. by right.
Qed.

Lemma flat_map_singleton {X Y} (f : X → Y) (l : list X) :
  flat_map (λ x, [f x]) l = map f l.
Proof. induction l as [|x l IH]; simpl; [done|]. by rewrite IH. Qed.

Lemma Dump_open s out :
  is_open s →
  Dump s out =
    (out ++ flat_map (λ '(name, l),
               Printf_bucket (string_of_bytes name)
               :: map (λ '(k, v), Printf_key_value (string_of_bytes k)
                                    (string_of_bytes v)) l)
              (Tx_buckets (root (db s))), None).
Proof.
  unfold is_open, Dump, DB_View, Tx_ForEach, Bucket_ForEach. intros ->.
  rewrite (ForEach_loop_print _ (λ '(name, l),
             Printf_bucket (string_of_bytes name)
             :: map (λ '(k, v), Printf_key_value (string_of_bytes k)
                                  (string_of_bytes v)) l)); [done|].
  intros name l a Hin. apply Tx_buckets_elem in Hin.
  unfold leaves_of. rewrite Hin. cbn [default from_option id].
  rewrite (ForEach_loop_print _ (λ '(k, v),
             [Printf_key_value (string_of_bytes k) (string_of_bytes v)]))
    by done.
  rewrite <- app_assoc. do 2 f_equal. simpl. f_equal.
  rewrite <- flat_map_singleton. apply flat_map_ext. by intros [??].
Qed.

End dump.

(** X16. [Dump] returns an error exactly when the store is closed: the
    error wraps the engine's "database not open" and nothing is printed.
    In every case [Dump] only appends to the standard output. *)
Theorem Dump_fails_only_when_closed s out :
  ((Dump s out).2 = None ↔ is_open s)
  ∧ (¬ is_open s → Dump s out = (out, Some (Errorf_volcado ErrDatabaseNotOpen)))
  ∧ (∃ lines, (Dump s out).1 = out ++ lines).
Proof.
  destruct (is_open_dec s) as [Ho|Hc].
  - rewrite Dump_open by done. split; [done|]. split; [done|]. by eexists.
  - assert (E : Dump s out = (out, Some (Errorf_volcado ErrDatabaseNotOpen))).
    { unfold is_open in Hc. unfold Dump, DB_View.
      by destruct (opened (db s)). }
    rewrite E. split; [done|]. split; [done|]. exists []. by rewrite app_nil_r.
Qed.

(** X17. On an open store [Dump] returns no error and prints, for every
    namespace in ascending byte order of the names, one line with the
    name of the bucket followed by one line for each entry of the bucket,
    in the order the bucket holds them; a namespace without entries still
    has its line. *)
Theorem Dump_prints_every_entry s out :
  is_open s →
  ∃ buckets : list (bytes * Leaves),
    Dump s out =
      (out ++ flat_map (λ '(name, l),
                 Printf_bucket (string_of_bytes name)
                 :: map (λ '(k, v), Printf_key_value (string_of_bytes k)
                                      (string_of_bytes v)) l) buckets, None)
    ∧ StronglySorted bytes_lt buckets.*1
    ∧ (∀ name l, (name, l) ∈ buckets ↔ root (db s) !! name = Some l).
Proof.
  intros Ho. exists (Tx_buckets (root (db s))).
  split; [by apply Dump_open|]. split; [apply Tx_buckets_sorted|].
  apply Tx_buckets_elem.
Qed.

Lemma Dump_prints_every_entry_witness :
  ∃ buckets : list (bytes * Leaves),
    Dump users_and_groups [] =
      ([] ++ flat_map (λ '(name, l),
                 Printf_bucket (string_of_bytes name)
                 :: map (λ '(k, v), Printf_key_value (string_of_bytes k)
                                      (string_of_bytes v)) l) buckets, None)
    ∧ StronglySorted bytes_lt buckets.*1
    ∧ (∀ name l, (name, l) ∈ buckets
                 ↔ root (db users_and_groups) !! name = Some l).
Proof. apply (Dump_prints_every_entry users_and_groups []). reflexivity. Defined.

(** X18. In a store built from a fresh one, [ListKeys(ns)] succeeds exactly
    when the history holds a [Put] into [ns] that the engine accepts,
    whether or not its key was deleted afterwards. *)
Theorem namespace_exists_iff_put ops ns :
  (ListKeys (run ops fresh_store) ns).2 = None
  ↔ ∃ k v, OpPut ns k v ∈ ops ∧ put_accepted ns k v.
Proof.
  assert (Ho : ∀ ops, is_open (run ops fresh_store))
    by (intros ?; apply run_keeps_open, fresh_store_open).
  transitivity (has_namespace (run ops fresh_store) ns).
  { rewrite ListKeys_open by done. unfold has_namespace.
    destruct (root (db (run ops fresh_store)) !! bytes_of_string ns); simpl.
    - split; [by eexists|done].
    - split; [done|]. by intros [? ?]. }
  induction ops as [|op ops IH] using rev_ind.
  - split.
    + intros [l Hl]. simpl in Hl. by rewrite lookup_empty in Hl.
    + by intros (?&?&?%elem_of_nil&_).
  - rewrite run_snoc, has_namespace_apply_op, IH by done. split.
    + intros [(k&v&Hin&Ha)|(k&v&->&Ha)]; exists k, v; split; try done;
        apply elem_of_app; [by left | right; by left].
    + intros (k&v&[Hin|Hin%list_elem_of_singleton]%elem_of_app&Ha).
      * left. by exists k, v.
      * right. by exists k, v.
Qed.

(** ** [Get] after a history of writes *)

(** X19. [Get] after a history of writes on a fresh store returns the value
    [v] exactly when the history holds a [Put(ns, k, v)] that the engine
    accepts and that is followed by no [Delete(ns, k)] and by no other
    accepted [Put] on the same namespace and key; a [Put] that the engine
    rejects in between changes nothing. *)
Theorem Get_returns_last_accepted_Put ops ns k v :
  Get (run ops fresh_store) ns k = (Some v, None)
  ↔ ∃ pre post,
      ops = pre ++ OpPut ns k v :: post
      ∧ put_accepted ns k v
      ∧ Forall (λ op, op ≠ OpDelete ns k
                      ∧ ∀ v', op = OpPut ns k v' → ¬ put_accepted ns k v') post.
Proof.
  rewrite Get_Some_lookup by apply run_keeps_open, fresh_store_open.
  revert v. induction ops as [|op ops IH] using rev_ind; intros v.
  - split; [done|]. intros (pre&post&E&_). by destruct pre.
  - rewrite run_snoc, lookup_apply_op
      by (apply run_keeps_open, fresh_store_open
          || apply run_keeps_sorted, map_Forall_empty).
    assert (Hkeep : (op ≠ OpDelete ns k
                     ∧ ∀ v', op = OpPut ns k v' → ¬ put_accepted ns k v') →
      (lookup_entry (run ops fresh_store) ns k = Some v ↔
       ∃ pre post, ops ++ [op] = pre ++ OpPut ns k v :: post
         ∧ put_accepted ns k v
         ∧ Forall (λ op, op ≠ OpDelete ns k
                     ∧ ∀ v', op = OpPut ns k v' → ¬ put_accepted ns k v') post)).
    { intros Hop. rewrite IH. split.
      - intros (pre&post&->&Ha&Hpost). exists pre, (post ++ [op]).
        split; [by rewrite <- app_assoc|]. split; [done|].
        apply Forall_app. split; [done|]. by constructor.
      - intros (pre&post&E&Ha&Hpost).
        apply snoc_split in E as [(->&->&<-)|(post'&->&->)].
        + destruct Hop as [_ Hop]. by destruct (Hop v).
        + apply Forall_app in Hpost as [Hpost _]. by exists pre, post'. }
    destruct op as [ns' k' v'|ns' k']; case_decide as E.
    + destruct E as (Ha&->&->). split.
      * intros [= ->]. exists ops, []. split; [done|]. split; [done|]. constructor.
      * intros (pre&post&E&_&Hpost).
        apply snoc_split in E as [(_&_&[= ->])|(post'&->&_)]; [done|].
        apply Forall_app in Hpost as [_ Hpost].
        apply Forall_singleton in Hpost as [_ Hpost]. by destruct (Hpost v').
    + apply Hkeep. split; [done|]. intros v'' [= -> -> ->] Ha. by apply E.
    + destruct E as [-> ->]. split; [done|].
      intros (pre&post&E&_&Hpost).
      apply snoc_split in E as [(_&_&[=])|(post'&->&_)].
      apply Forall_app in Hpost as [_ Hpost].
      apply Forall_singleton in Hpost as [Hpost _]. done.
    + apply Hkeep. split; [|done]. intros [= -> ->]. by apply E.
Qed.

Lemma Get_returns_last_accepted_Put_witness :
  Get (run [OpPut "ns" key_user1 val_a; OpPut "ns" key_user1 val_b;
            OpPut "ns" key_user1 []; OpDelete "ns" key_user2] fresh_store)
    "ns" key_user1
  = (Some [], None).
Proof.
  apply (Get_returns_last_accepted_Put _ "ns" key_user1 []).
  exists [OpPut "ns" key_user1 val_a; OpPut "ns" key_user1 val_b],
         [OpDelete "ns" key_user2].
  split; [reflexivity|]. split.
  - vm_compute. repeat split; discriminate.
  - repeat constructor; discriminate.
Defined.
